(** * Excel-like table sort (weekly_app/static/js/table_sort.js)

    A shallow embedding of the client-side table sorter: the value parser
    [parseExcelValue], the row comparator handed to [Array.prototype.sort],
    and the click handler that sorts the body rows, re-attaches them and
    toggles the per-column direction.

    JavaScript strings are sequences of UTF-16 code units ([list N]).
    Numbers are IEEE-754 binary64 values ([spec_float] at precision 53,
    exponent bound 1024).  The two services of the host that are not code of
    the repository and depend on Unicode tables, [String.prototype.localeCompare]
    and the non-ASCII part of [String.prototype.toLowerCase], are parameters
    of the development. *)

From Stdlib Require Import ZArith NArith String Ascii Lia.
From Stdlib Require Import Floats.SpecFloat.
From stdpp Require Import gmap list sorting.

Local Open Scope Z_scope.

(** ** JavaScript strings *)

Module JsString.

Definition jsstring := list N.

(** An ASCII literal as code units. *)
Definition str (s : string) : jsstring :=
  List.map N_of_ascii (list_ascii_of_string s).

(** The empty string. *)
Definition emptyText : jsstring := [].

Definition rupee : N := 0x20B9%N.   (* U+20B9 INDIAN RUPEE SIGN *)
Definition emdash : N := 0x2014%N.  (* U+2014 EM DASH *)
Definition comma : N := 44%N.
Definition percent : N := 37%N.
Definition hyphen : N := 45%N.

Definition between (lo hi c : N) : bool := ((lo <=? c) && (c <=? hi))%N.

(** WhiteSpace and LineTerminator code units, the set stripped by [trim]
    and skipped by the string-to-number conversion. *)
Definition isWhiteSpace (c : N) : bool :=
  between 9 13 c || (c =? 32)%N || (c =? 0xA0)%N || (c =? 0x1680)%N
  || between 0x2000 0x200A c || (c =? 0x2028)%N || (c =? 0x2029)%N
  || (c =? 0x202F)%N || (c =? 0x205F)%N || (c =? 0x3000)%N || (c =? 0xFEFF)%N.

Fixpoint trimStart (s : jsstring) : jsstring :=
  match s with
  | c :: s' => if isWhiteSpace c then trimStart s' else s
  | [] => []
  end.

Definition trimEnd (s : jsstring) : jsstring := reverse (trimStart (reverse s)).

Definition trim (s : jsstring) : jsstring := trimEnd (trimStart s).

Definition eqb (a b : jsstring) : bool := bool_decide (a = b).

(** The global replacement of [/₹|,|%/] by the empty string: every
    alternative of the pattern is one code unit, so it deletes exactly
    those units. *)
Definition isFormatting (c : N) : bool :=
  (c =? rupee)%N || (c =? comma)%N || (c =? percent)%N.

Definition stripFormatting (s : jsstring) : jsstring :=
  List.filter (fun c => negb (isFormatting c)) s.

Definition isAscii (c : N) : bool := (c <? 128)%N.

Definition lowerAscii (c : N) : N :=
  if between 65 90 c then (c + 32)%N else c.

End JsString.

Import JsString.

(** ** String to Number (ECMAScript StringToNumber) *)

Module JsNumber.

Definition prec : Z := 53.
Definition emax : Z := 1024.

(** The Number value of an integer. *)
Definition ofZ (z : Z) : spec_float := binary_normalize prec emax z 0 false.

Definition isNaN (x : spec_float) : bool :=
  match x with S754_nan => true | _ => false end.

(** Strict inequality [x !== y] on Numbers. *)
Definition strictNeq (x y : spec_float) : bool := negb (SFeqb x y).

(** The sign of the Number [x - y] for operands that are not NaN.  With
    gradual underflow the IEEE difference of two distinct values is never
    zero, so its sign is the outcome of comparing the operands; the sort
    consumes the comparator's result through its sign only. *)
Definition diffSign (x y : spec_float) : Z :=
  match SFcompare x y with
  | Some Lt => -1
  | Some Gt => 1
  | _ => 0
  end.

Definition digitValue (base : N) (c : N) : option N :=
  let v :=
    if between 48 57 c then Some (c - 48)%N
    else if between 97 102 c then Some (c - 87)%N
    else if between 65 70 c then Some (c - 55)%N
    else None in
  match v with
  | Some d => if (d <? base)%N then Some d else None
  | None => None
  end.

(** The longest prefix of digits in [base], most significant first, and
    what follows it. *)
Fixpoint takeDigits (base : N) (s : jsstring) : list N * jsstring :=
  match s with
  | c :: s' =>
      match digitValue base c with
      | Some d => let '(ds, r) := takeDigits base s' in (d :: ds, r)
      | None => ([], s)
      end
  | [] => ([], [])
  end.

Definition digitsValue (base : N) (ds : list N) : N :=
  fold_left (fun acc d => (base * acc + d)%N) ds 0%N.

(** RoundMVResult for the mathematical value [m * 10^k]: the nearest
    binary64 value, ties to even. *)
Definition roundDecimal (m : N) (k : Z) : spec_float :=
  match m with
  | N0 => S754_zero false
  | Npos p =>
      if 0 <=? k then binary_normalize prec emax (Zpos p * 10 ^ k) 0 false
      else SFdiv prec emax (S754_finite false p 0)
                           (S754_finite false (Z.to_pos (10 ^ (- k))) 0)
  end.

(** ExponentPart, or nothing, up to the end of the literal. *)
Definition parseExponent (s : jsstring) : option Z :=
  match s with
  | [] => Some 0
  | c :: s' =>
      if (c =? 101)%N || (c =? 69)%N then
        let '(neg, s'') :=
          match s' with
          | d :: t => if (d =? 43)%N then (false, t)
                      else if (d =? 45)%N then (true, t) else (false, s')
          | [] => (false, s')
          end in
        match takeDigits 10 s'' with
        | ((_ :: _) as ds, []) =>
            let e := Z.of_N (digitsValue 10 ds) in
            Some (if neg then - e else e)
        | _ => None
        end
      else None
  end.

(** StrUnsignedDecimalLiteral. *)
Definition parseUnsignedDecimal (s : jsstring) : option spec_float :=
  if JsString.eqb s (str "Infinity") then Some (S754_infinity false)
  else
    let '(ip, r1) := takeDigits 10 s in
    let '(fp, r2) :=
      match r1 with
      | c :: t => if (c =? 46)%N then takeDigits 10 t else ([], r1)
      | [] => ([], r1)
      end in
    match ip ++ fp with
    | [] => None
    | ds =>
        match parseExponent r2 with
        | Some e =>
            Some (roundDecimal (digitsValue 10 ds) (e - Z.of_nat (length fp)))
        | None => None
        end
    end.

(** StrDecimalLiteral: an optional sign and an unsigned literal. *)
Definition parseDecimal (s : jsstring) : option spec_float :=
  match s with
  | c :: t =>
      if (c =? 43)%N then parseUnsignedDecimal t
      else if (c =? 45)%N then SFopp <$> parseUnsignedDecimal t
      else parseUnsignedDecimal s
  | [] => None
  end.

(** NonDecimalIntegerLiteral: 0b, 0o and 0x literals, unsigned. *)
Definition parseNonDecimal (s : jsstring) : option spec_float :=
  match s with
  | z :: p :: t =>
      let base :=
        if (p =? 120)%N || (p =? 88)%N then Some 16%N
        else if (p =? 111)%N || (p =? 79)%N then Some 8%N
        else if (p =? 98)%N || (p =? 66)%N then Some 2%N
        else None in
      match (z =? 48)%N, base with
      | true, Some b =>
          match takeDigits b t with
          | ((_ :: _) as ds, []) => Some (ofZ (Z.of_N (digitsValue b ds)))
          | _ => None
          end
      | _, _ => None
      end
  | _ => None
  end.

(** [Number(s)] for a string argument. *)
Definition Number (s : jsstring) : spec_float :=
  match trim s with
  | [] => S754_zero false
  | t =>
      match parseNonDecimal t with
      | Some v => v
      | None =>
          match parseDecimal t with
          | Some v => v
          | None => S754_nan
          end
      end
  end.

End JsNumber.

Import JsNumber.

(** ** Services of the host *)

(** [localeCompare] and the Unicode part of [toLowerCase] are implemented
    by the host from its collation and case tables.  Only the sign of
    [localeCompare] is observed. *)
Class Host := {
  unicodeLower : jsstring -> jsstring;
  localeCompare : jsstring -> jsstring -> Z
}.

(** ECMAScript requires [localeCompare] to be a consistent comparator: a
    total preorder on strings, possibly with ties between different
    strings (canonically equivalent ones, for instance). *)
Class ConsistentHost (H : Host) := {
  localeCompare_antisym : forall a b, Z.sgn (localeCompare b a) = - Z.sgn (localeCompare a b);
  localeCompare_trans : forall a b c,
    localeCompare a b <= 0 -> localeCompare b c <= 0 -> localeCompare a c <= 0
}.

Definition toLowerCase `{Host} (s : jsstring) : jsstring :=
  if forallb isAscii s then lowerAscii <$> s else unicodeLower s.

(** A host whose collation is plain code-unit order; it stands for the
    host wherever a statement is evaluated on concrete rows of text. *)
Fixpoint codeUnitCompare (a b : jsstring) : Z :=
  match a, b with
  | [], [] => 0
  | [], _ :: _ => -1
  | _ :: _, [] => 1
  | x :: a', y :: b' =>
      match N.compare x y with
      | Lt => -1
      | Gt => 1
      | Eq => codeUnitCompare a' b'
      end
  end.

Definition codeUnitHost : Host :=
  {| unicodeLower := fun s => s; localeCompare := codeUnitCompare |}.

(** ** The value parser *)

Inductive ParsedValue :=
  | PBlank                          (* { type: "blank", value: null } *)
  | PNumber (value : spec_float)    (* { type: "number", value: num } *)
  | PText (value : jsstring).       (* { type: "text", value: raw.toLowerCase() } *)

Inductive PType := TBlank | TNumber | TText.

#[global] Instance PType_eq_dec : EqDecision PType.
Proof. solve_decision. Defined.

Definition ptype (v : ParsedValue) : PType :=
  match v with
  | PBlank => TBlank
  | PNumber _ => TNumber
  | PText _ => TText
  end.

Definition ptype_eqb (a b : PType) : bool :=
  match a, b with
  | TBlank, TBlank | TNumber, TNumber | TText, TText => true
  | _, _ => false
  end.

(** [parseExcelValue]: the argument is [None] when the caller passes
    [undefined], which the default parameter turns into the empty string. *)
Definition parseExcelValue `{Host} (text : option jsstring) : ParsedValue :=
  let text := default [] text in
  let raw := trim text in
  if JsString.eqb raw [] || JsString.eqb raw [hyphen] || JsString.eqb raw [emdash]
  then PBlank
  else
    let cleaned := stripFormatting raw in
    let num := Number cleaned in
    if negb (isNaN num) then PNumber num
    else PText (toLowerCase raw).

(** ** Rows and the comparator *)

(** A body row: the texts of its cells and the tag [__rowIndex] attached
    when the table is set up. *)
Record Row := mkRow { rowIndex : Z; cells : list jsstring }.

#[global] Instance Row_eq_dec : EqDecision Row.
Proof. solve_decision. Defined.

Inductive Direction := Asc | Desc.

#[global] Instance Direction_eq_dec : EqDecision Direction.
Proof. solve_decision. Defined.

(** [row.cells[colIndex]?.innerText] *)
Definition innerTextAt (row : Row) (colIndex : nat) : option jsstring :=
  cells row !! colIndex.

(** The function passed to [rows.sort] by the click handler. *)
Definition compareRows `{Host} (colIndex : nat) (direction : Direction)
    (rowA rowB : Row) : Z :=
  let A := parseExcelValue (innerTextAt rowA colIndex) in
  let B := parseExcelValue (innerTextAt rowB colIndex) in
  match A, B with
  | PNumber a, PNumber b =>
      (* ----- numeric comparison ----- *)
      if strictNeq a b then
        match direction with
        | Desc => diffSign b a
        | Asc => diffSign a b
        end
      else rowIndex rowA - rowIndex rowB
  | _, _ =>
      (* ----- blanks always last ----- *)
      if negb (ptype_eqb (ptype A) (ptype B)) then
        match A with PBlank => 1 | _ => -1 end
      else
        (* ----- text comparison ----- *)
        match A, B with
        | PText a, PText b =>
            if negb (JsString.eqb a b) then
              match direction with
              | Desc => localeCompare b a
              | Asc => localeCompare a b
              end
            else rowIndex rowA - rowIndex rowB
        | _, _ => rowIndex rowA - rowIndex rowB   (* null !== null is false *)
        end
  end.

(** ** Array.prototype.sort *)

(** ECMAScript asks for a stable sort and leaves the algorithm to the
    host; for a comparator that is not consistent the resulting order is up
    to the host.  The sort is modelled as the stable insertion sort: each
    item in turn is moved left over the neighbours [swap] with
    [comparefn(swap, item) > 0].  The sorted prefix is held leftwards, its
    head being the element next to the slot of the item. *)
Section Sort.
Context {A : Type} (comparefn : A -> A -> Z).

Fixpoint insertItem (item : A) (prefix : list A) : list A :=
  match prefix with
  | [] => [item]
  | swap :: rest =>
      if comparefn swap item >? 0 then swap :: insertItem item rest
      else item :: prefix
  end.

Definition sortLeftwards (l : list A) : list A :=
  fold_left (fun prefix item => insertItem item prefix) l [].

Definition sort (l : list A) : list A := reverse (sortLeftwards l).
End Sort.

(** ** The table and the click handler *)

(** The handler below is the one of table_sort.js.  The script written for
    the category-sales page has the same parser and comparator; its handler
    always sorts all the rows of the body, as this one does for a table
    with a header section. *)

(** A table as found in the document: the rows of its header section, when
    it has one, and its bodies; a row is the list of its cells' texts. *)
Record Table := mkTable {
  tHead : option (list (list jsstring));
  tBodies : list (list (list jsstring))
}.

(** What the handlers of one table share: the rows of [tbody] in document
    order, whether [table.tHead] is set, and the [sortState] object. *)
Record TableState := mkState {
  hasTHead : bool;
  tbodyRows : list Row;
  sortState : gmap nat Direction
}.

(** [tbody.appendChild(row)]: a row that is already a child is moved to
    the end. *)
Definition appendChild (rows : list Row) (row : Row) : list Row :=
  filter (fun r => r <> row) rows ++ [row].

Definition toggle (direction : Direction) : Direction :=
  match direction with Desc => Asc | Asc => Desc end.

(** The header cells: those of the first row of the header section, or
    else of the first row of the body. *)
Definition headerCells (table : Table) (tbody : list (list jsstring)) : list jsstring :=
  match tHead table with
  | Some (r :: _) => r
  | _ => match tbody with r :: _ => r | [] => [] end
  end.

(** Set-up of one table on DOMContentLoaded; [None] when the table is
    skipped. *)
Definition setup (table : Table) : option TableState :=
  match tBodies table with
  | [] => None
  | tbody :: _ =>
      let cols := headerCells table tbody in
      match cols with
      | [] => None
      | _ =>
          Some {| hasTHead := bool_decide (is_Some (tHead table));
                  tbodyRows := imap (fun index cs => mkRow (Z.of_nat index) cs) tbody;
                  sortState := list_to_map ((fun colIndex => (colIndex, Desc)) <$> seq 0 (length cols)) |}
      end
  end.

(** The rows handed to the sort: all of them, or all but the first when
    the header row lives in the body. *)
Definition sortedSlice (st : TableState) : list Row :=
  if hasTHead st then tbodyRows st else drop 1 (tbodyRows st).

(** The header row when it lives in the body: the row the slice leaves out. *)
Definition headerPart (st : TableState) : list Row :=
  if hasTHead st then [] else take 1 (tbodyRows st).

(** The body of the listener once [direction] has been read. *)
Definition sortColumn `{Host} (colIndex : nat) (direction : Direction)
    (st : TableState) : TableState :=
  let rows := sort (compareRows colIndex direction) (sortedSlice st) in
  {| hasTHead := hasTHead st;
     tbodyRows := fold_left appendChild rows (tbodyRows st);
     sortState := <[colIndex := toggle direction]> (sortState st) |}.

(** A click on the header cell of column [colIndex]; columns without a
    header cell have no listener. *)
Definition click `{Host} (colIndex : nat) (st : TableState) : TableState :=
  match sortState st !! colIndex with
  | Some direction => sortColumn colIndex direction st
  | None => st
  end.

Definition clicks `{Host} (cols : list nat) (st : TableState) : TableState :=
  fold_left (fun s c => click c s) cols st.

(** Rows of a table state are distinct DOM nodes, told apart by their tags. *)
Definition wellTagged (st : TableState) : Prop :=
  NoDup (rowIndex <$> tbodyRows st).

(** [a] occurs before [b] in [l]. *)
Definition precedes {A : Type} (l : list A) (a b : A) : Prop :=
  exists i j : nat, l !! i = Some a /\ l !! j = Some b /\ (i < j)%nat.

(** No two neighbours of [l] ask to be swapped. *)
Definition neighbourly {A : Type} (comparefn : A -> A -> Z) (l : list A) : Prop :=
  forall i a b, l !! i = Some a -> l !! S i = Some b -> comparefn a b <= 0.

(** Composition of two comparisons: [Eq] is neutral, and equal outcomes
    compose to themselves. *)
Definition composeCmp (c1 c2 : comparison) : option comparison :=
  match c1, c2 with
  | Eq, c | c, Eq => Some c
  | Lt, Lt => Some Lt
  | Gt, Gt => Some Gt
  | _, _ => None
  end.

(** Blank and non-blank display texts. *)
Definition isBlankAt `{Host} (colIndex : nat) (row : Row) : bool :=
  match parseExcelValue (innerTextAt row colIndex) with
  | PBlank => true
  | _ => false
  end.

(** The parsed value and the type of a row's cell in a column. *)
Definition cellValue `{Host} (colIndex : nat) (row : Row) : ParsedValue :=
  parseExcelValue (innerTextAt row colIndex).

Definition cellType `{Host} (colIndex : nat) (row : Row) : PType :=
  ptype (cellValue colIndex row).

(** The parsed values of two cells are the same value: the same type, and
    values that [!==] does not tell apart. *)
Definition sameValue (a b : ParsedValue) : bool :=
  match a, b with
  | PBlank, PBlank => true
  | PNumber x, PNumber y => negb (strictNeq x y)
  | PText x, PText y => JsString.eqb x y
  | _, _ => false
  end.

(** The cells of a column parse to pairwise distinct values. *)
Definition distinctValues `{Host} (colIndex : nat) (rows : list Row) : Prop :=
  forall a b, a ∈ rows -> b ∈ rows -> a <> b ->
    sameValue (cellValue colIndex a) (cellValue colIndex b) = false.

(** The host's collation tells apart the different texts of a column. *)
Definition separatedTexts `{Host} (colIndex : nat) (rows : list Row) : Prop :=
  forall a b s t, a ∈ rows -> b ∈ rows ->
    cellValue colIndex a = PText s -> cellValue colIndex b = PText t ->
    localeCompare s t = 0 -> s = t.

(** The cells of a column that are not blank all have the same type. *)
Definition uniformColumn `{Host} (colIndex : nat) (rows : list Row) : Prop :=
  forall a b, a ∈ rows -> b ∈ rows ->
    cellType colIndex a <> TBlank -> cellType colIndex b <> TBlank ->
    cellType colIndex a = cellType colIndex b.

(** ** Sample tables *)

(** A table with a header section, a column of names and a numeric column
    with a tie. *)
Definition tiesTable : Table :=
  mkTable (Some [[str "Name"; str "Amount"]])
          [[[str "A"; str "5"]; [str "B"; str "3"]; [str "C"; str "5"]]].

(** A table with a header section whose second column mixes numbers and
    a text. *)
Definition mixedTable : Table :=
  mkTable (Some [[str "Id"; str "Value"]])
          [[[str "1"; str "5"]; [str "2"; str "x"]; [str "3"; str "5"]]].


(** A table without header section: its first body row is the header.
    The last row has no cell in the second column. *)
Definition embeddedHeaderTable : Table :=
  mkTable None
          [[[str "Name"; str "Amount"]; [str "a"; str "10"]; [str "b"; emptyText];
            [str "c"; rupee :: str "1,200"]; [str "d"; str "-"]; [str "e"]]].


(** A table without header section whose header row has an empty cell
    above the first column. *)
Definition cornerTable : Table :=
  mkTable None [[[emptyText; str "Qty"]; [str "1"; str "5"]; [str "2"; str "7"]]].

(** The rows of [precedenceTable] once tagged, and the same cells loaded
    with the number first. *)
Definition textFirstRows : list Row :=
  [mkRow 0 [str "abc"]; mkRow 1 [str "10"]; mkRow 2 [emptyText]].
Definition numberFirstRows : list Row :=
  [mkRow 0 [str "10"]; mkRow 1 [str "abc"]; mkRow 2 [emptyText]].

(** The state of a sample table after set-up; a skipped table has no rows. *)
Definition stateOf (table : Table) : TableState :=
  default (mkState false [] ∅) (setup table).

(** A row showing a number and a row showing a text. *)
Definition numberRow : Row := mkRow 0 [str "10"].
Definition textRow : Row := mkRow 1 [str "abc"].

(** The rows of [embeddedHeaderTable] once tagged: the header row and the
    rows under it. *)
Definition embeddedHeaderRow : Row := mkRow 0 [str "Name"; str "Amount"].
Definition embeddedDataRows : list Row :=
  [mkRow 1 [str "a"; str "10"]; mkRow 2 [str "b"; emptyText];
   mkRow 3 [str "c"; rupee :: str "1,200"]; mkRow 4 [str "d"; str "-"];
   mkRow 5 [str "e"]].


(** ** Sequences of clicks *)

(** How many of the clicks [cols] hit the header of column [colIndex]. *)
Definition clicksOn (colIndex : nat) (cols : list nat) : nat :=
  length (filter (fun c => c = colIndex) cols).

(** The direction read by the next click when [n] clicks have been made on
    a column whose direction was [d]. *)
Definition directionAfter (d : Direction) (n : nat) : Direction :=
  if Nat.even n then d else toggle d.

(** ** The category-sales script *)

(** What running the load handler of a script comes to. *)
Inductive Outcome :=
  | Skipped                     (* an early [return] *)
  | TypeError                   (* a property read on [null] or [undefined] *)
  | Ready (st : TableState).

(** The load handler of the category-sales script on the tables of the
    document, in document order: it takes the first table, reads the cells
    of the first row of its header section without a test, tags the rows
    and sets every column to [Desc]. *)
Definition categorySetup (document : list Table) : Outcome :=
  match document with
  | [] => Skipped                                (* if (!table) return *)
  | table :: _ =>
      match tBodies table with
      | [] => Skipped                            (* if (!tbody) return *)
      | tbody :: _ =>
          match tHead table with
          | None => TypeError                    (* table.tHead.rows *)
          | Some [] => TypeError                 (* table.tHead.rows[0].cells *)
          | Some (headers :: _) =>
              Ready {| hasTHead := true;
                       tbodyRows := imap (fun index cs => mkRow (Z.of_nat index) cs) tbody;
                       sortState := list_to_map ((fun colIndex => (colIndex, Desc)) <$> seq 0 (length headers)) |}
          end
      end
  end.

(** The body of its listener once [direction] has been read: all the rows
    of the body are sorted. *)
Definition categorySortColumn `{Host} (colIndex : nat) (direction : Direction)
    (st : TableState) : TableState :=
  let rows := sort (compareRows colIndex direction) (tbodyRows st) in
  {| hasTHead := hasTHead st;
     tbodyRows := fold_left appendChild rows (tbodyRows st);
     sortState := <[colIndex := toggle direction]> (sortState st) |}.

Definition categoryClick `{Host} (colIndex : nat) (st : TableState) : TableState :=
  match sortState st !! colIndex with
  | Some direction => categorySortColumn colIndex direction st
  | None => st
  end.

Definition categoryClicks `{Host} (cols : list nat) (st : TableState) : TableState :=
  fold_left (fun s c => categoryClick c s) cols st.

(** ** More sample tables *)

(** A table whose header section has no row: the header cells are those
    of the first row of the body, whose first cell is empty. *)
Definition emptyTheadTable : Table :=
  mkTable (Some [])
          [[[emptyText; str "Qty"]; [str "7"; str "1"]; [str "9"; str "2"]]].

(** A numeric column with ties and blanks, under a header section. *)
Definition amountsTable : Table :=
  mkTable (Some [[str "Amount"; str "Id"]])
          [[[str "5"; str "1"]; [str "-"; str "2"]; [rupee :: str "1,200"; str "3"];
            [str "5"; str "4"]; [emptyText; str "5"]; [str "45%"; str "6"]]].

(** A column of different numbers, without blank cell. *)
Definition plainNumbersTable : Table :=
  mkTable (Some [[str "N"]]) [[[str "3"]; [str "1"]; [str "2"]]].

(** [amountsTable] after a click on its second column under the code-unit
    host: the body stands in the reverse of the load order. *)
Definition amountsReversedState : TableState :=
  click (H := codeUnitHost) 1 (stateOf amountsTable).

(** [mixedTable] after a click on its first column under the code-unit
    host: the body stands in the reverse of the load order. *)
Definition mixedReversedState : TableState :=
  click (H := codeUnitHost) 0 (stateOf mixedTable).

(** * The value parser *)

Section Parser.
Context `{Host}.

(** C1. The parser maps the displayed texts "₹1,200" and "45%" to the
    numbers 1200 and 45, each of "—", "-" and the empty text to blank, and
    "Banana" to the text "banana". *)
Theorem parseExcelValue_examples :
  parseExcelValue (Some (rupee :: str "1,200")) = PNumber (ofZ 1200)
  /\ parseExcelValue (Some (str "45%")) = PNumber (ofZ 45)
  /\ parseExcelValue (Some [emdash]) = PBlank
  /\ parseExcelValue (Some (str "-")) = PBlank
  /\ parseExcelValue (Some emptyText) = PBlank
  /\ parseExcelValue (Some (str "Banana")) = PText (str "banana").
Proof. repeat split; vm_compute; reflexivity. Qed.

Lemma trimStart_no_space s :
  Forall (fun c => isWhiteSpace c = false) s -> trimStart s = s.
Proof. destruct 1 as [|c s Hc _]; simpl; [done | by rewrite Hc]. Qed.

Lemma trim_no_space s :
  Forall (fun c => isWhiteSpace c = false) s -> trim s = s.
Proof.
  intros Hs. unfold trim, trimEnd. rewrite (trimStart_no_space s Hs).
  rewrite trimStart_no_space; [apply reverse_involutive |].
  by apply Forall_reverse.
Qed.

Lemma isFormatting_cases c :
  isFormatting c = true -> c = rupee \/ c = comma \/ c = percent.
Proof.
  unfold isFormatting. rewrite !orb_true_iff, !N.eqb_eq. tauto.
Qed.

Lemma stripFormatting_all s :
  Forall (fun c => isFormatting c = true) s -> stripFormatting s = [].
Proof.
  induction 1 as [|c s Hc _ IH]; [done |].
  unfold stripFormatting in *. simpl. by rewrite Hc.
Qed.

(** C10. A text whose trimmed form is not empty and is made of the
    characters ₹, comma and % only (so it is neither "-" nor "—") parses
    as the number +0: the stripped string is empty and [Number] of the
    empty string is 0. *)
Theorem parseExcelValue_all_formatting (text : jsstring) :
  trim text <> [] ->
  Forall (fun c => isFormatting c = true) (trim text) ->
  stripFormatting (trim text) = []
  /\ parseExcelValue (Some text) = PNumber (S754_zero false).
Proof.
  intros Hne Hall. split; [by apply stripFormatting_all |].
  unfold parseExcelValue. simpl.
  rewrite (stripFormatting_all _ Hall).
  destruct (trim text) as [|c s] eqn:Hraw; [done |].
  apply Forall_cons in Hall as [Hc Hs].
  assert (JsString.eqb (c :: s) [] = false) as ->
    by (apply bool_decide_eq_false; congruence).
  assert (JsString.eqb (c :: s) [hyphen] = false) as ->.
  { apply bool_decide_eq_false. intros [= -> ->]. discriminate Hc. }
  assert (JsString.eqb (c :: s) [emdash] = false) as ->.
  { apply bool_decide_eq_false. intros [= -> ->]. discriminate Hc. }
  reflexivity.
Qed.

(** Every result of the parser is blank, a number that is not NaN, or a
    text. *)
Lemma parseExcelValue_cases (text : option jsstring) :
  parseExcelValue text = PBlank
  \/ (exists n, parseExcelValue text = PNumber n /\ isNaN n = false)
  \/ (exists s, parseExcelValue text = PText s).
Proof.
  unfold parseExcelValue.
  destruct (_ || _); [by left | right].
  destruct (isNaN _) eqn:Hn; simpl; [right | left]; eauto.
Qed.

Lemma parseExcelValue_number (text : option jsstring) n :
  parseExcelValue text = PNumber n -> isNaN n = false.
Proof.
  destruct (parseExcelValue_cases text) as [E | [(m & E & Hm) | (s & E)]];
    rewrite E; congruence.
Qed.
End Parser.

(** * Order of binary64 values *)

Section NumberOrder.

Lemma SFcompare_swap x y :
  SFcompare y x = CompOpp <$> SFcompare x y.
Proof.
  destruct x as [[]|[]| |[] m1 e1], y as [[]|[]| |[] m2 e2];
    simpl; try reflexivity;
    rewrite (Z.compare_antisym e1 e2);
    destruct (e1 ?= e2); simpl; try reflexivity;
    change (Pos.compare_cont Eq m2 m1) with (Pos.compare m2 m1);
    change (Pos.compare_cont Eq m1 m2) with (Pos.compare m1 m2);
    rewrite (Pos.compare_antisym m1 m2); by destruct (m1 ?= m2)%positive.
Qed.

Ltac sf_cases :=
  repeat match goal with
  | |- context [Pos.compare_cont Eq ?a ?b] =>
      change (Pos.compare_cont Eq a b) with (Pos.compare a b)
  | H : context [Pos.compare_cont Eq ?a ?b] |- _ =>
      change (Pos.compare_cont Eq a b) with (Pos.compare a b) in H
  end;
  repeat match goal with
  | H : context [Z.compare ?a ?b] |- _ => destruct (Z.compare_spec a b)
  | |- context [Z.compare ?a ?b] => destruct (Z.compare_spec a b)
  | H : context [Pos.compare ?a ?b] |- _ => destruct (Pos.compare_spec a b)
  | |- context [Pos.compare ?a ?b] => destruct (Pos.compare_spec a b)
  end;
  simpl in *; try discriminate; try lia; try (subst; lia); try reflexivity.

Lemma SFcompare_compose x y z c1 c2 c :
  SFcompare x y = Some c1 -> SFcompare y z = Some c2 ->
  composeCmp c1 c2 = Some c -> SFcompare x z = Some c.
Proof.
  destruct x as [[]|[]| |[] m1 e1], y as [[]|[]| |[] m2 e2],
           z as [[]|[]| |[] m3 e3];
    simpl; intros Hxy Hyz Hc; try congruence;
    injection Hxy as <-; injection Hyz as <-;
    try (injection Hc as <-; reflexivity);
    try discriminate Hc;
    f_equal; revert Hc; sf_cases; intros [= <-]; sf_cases.
Qed.

Lemma SFcompare_total x y :
  isNaN x = false -> isNaN y = false -> exists c, SFcompare x y = Some c.
Proof.
  destruct x as [[]|[]| |[] ? ?], y as [[]|[]| |[] ? ?]; simpl;
    intros; try discriminate; eauto.
Qed.

Lemma SFcompare_refl x : isNaN x = false -> SFcompare x x = Some Eq.
Proof.
  destruct x as [[]|[]| |[] m e]; simpl; intros; try discriminate;
    try reflexivity; rewrite Z.compare_refl;
    change (Pos.compare_cont Eq m m) with (Pos.compare m m);
    by rewrite Pos.compare_refl.
Qed.

End NumberOrder.

(** * Positions in a list *)

Section Precedes.
Context {A : Type}.
Implicit Types (l : list A) (a b c : A).

Lemma precedes_split l a b :
  precedes l a b <-> exists l1 l2 l3, l = l1 ++ a :: l2 ++ b :: l3.
Proof.
  split.
  - intros (i & j & Hi & Hj & Hij).
    apply list_elem_of_split_length in Hi as (l1 & r & -> & ->).
    rewrite lookup_app_r in Hj by lia.
    destruct (j - length l1)%nat as [|k] eqn:Hk; [lia |]. simpl in Hj.
    apply list_elem_of_split_length in Hj as (l2 & l3 & -> & _).
    by exists l1, l2, l3.
  - intros (l1 & l2 & l3 & ->).
    exists (length l1), (length l1 + S (length l2))%nat. repeat split.
    + by rewrite list_lookup_middle.
    + rewrite lookup_app_r by lia.
      replace (length l1 + S (length l2) - length l1)%nat
        with (S (length l2)) by lia.
      simpl. by rewrite list_lookup_middle.
    + lia.
Qed.

Lemma precedes_elem_of l a b : precedes l a b -> a ∈ l /\ b ∈ l.
Proof.
  intros (i & j & Hi & Hj & _). split; eapply list_elem_of_lookup_2; eauto.
Qed.

Lemma precedes_total l a b :
  a ∈ l -> b ∈ l -> a <> b -> precedes l a b \/ precedes l b a.
Proof.
  intros [i Hi]%list_elem_of_lookup_1 [j Hj]%list_elem_of_lookup_1 Hab.
  destruct (lt_eq_lt_dec i j) as [[Hlt | ->] | Hlt].
  - left. by exists i, j.
  - congruence.
  - right. by exists j, i.
Qed.

Lemma precedes_asym l a b :
  NoDup l -> precedes l a b -> precedes l b a -> False.
Proof.
  intros Hl (i & j & Hi & Hj & Hij) (j' & i' & Hj' & Hi' & Hji).
  pose proof (NoDup_lookup _ _ _ _ Hl Hi Hi').
  pose proof (NoDup_lookup _ _ _ _ Hl Hj Hj'). lia.
Qed.


Lemma precedes_reverse l a b :
  precedes (reverse l) a b <-> precedes l b a.
Proof.
  split.
  - intros (i & j & Hi & Hj & Hij).
    apply reverse_lookup_Some in Hi as [Hi ?], Hj as [Hj ?].
    eexists _, _. repeat split; [exact Hj | exact Hi | lia].
  - intros (j & i & Hj & Hi & Hji).
    pose proof (lookup_lt_Some _ _ _ Hi). pose proof (lookup_lt_Some _ _ _ Hj).
    exists (length l - S i)%nat, (length l - S j)%nat. repeat split.
    + apply reverse_lookup_Some. split; [|lia].
      by replace (length l - S (length l - S i))%nat with i by lia.
    + apply reverse_lookup_Some. split; [|lia].
      by replace (length l - S (length l - S j))%nat with j by lia.
    + lia.
Qed.


Lemma precedes_middle l1 l2 x a :
  a ∈ l2 -> precedes (l1 ++ x :: l2) x a.
Proof.
  intros (k1 & k2 & ->)%list_elem_of_split.
  apply precedes_split. by exists l1, k1, k2.
Qed.

Lemma precedes_cons_inv l x a b :
  precedes (x :: l) a b -> a <> x -> precedes l a b.
Proof.
  intros (i & j & Hi & Hj & Hij) Hax.
  destruct i as [|i]; simpl in Hi; [congruence |].
  destruct j as [|j]; [lia |]. simpl in Hj.
  exists i, j. repeat split; [done | done | lia].
Qed.

Lemma precedes_cons l x a b : precedes l a b -> precedes (x :: l) a b.
Proof.
  intros (i & j & Hi & Hj & Hij). exists (S i), (S j).
  repeat split; [done | done | lia].
Qed.

Lemma precedes_head l x a : a ∈ l -> precedes (x :: l) x a.
Proof. intros Ha. by apply (precedes_middle []). Qed.
End Precedes.

(** * The insertion sort *)

Section SortFacts.
Context {A : Type} (comparefn : A -> A -> Z).
Implicit Types (l prefix : list A) (item a b : A).

Lemma insertItem_split item prefix :
  exists p1 p2, prefix = p1 ++ p2
    /\ insertItem comparefn item prefix = p1 ++ item :: p2
    /\ Forall (fun e => comparefn e item > 0) p1
    /\ (forall e, head p2 = Some e -> comparefn e item <= 0).
Proof.
  induction prefix as [|swap rest IH]; simpl.
  - exists [], []. repeat split; [constructor | discriminate].
  - destruct (comparefn swap item >? 0) eqn:Hc.
    + destruct IH as (p1 & p2 & -> & -> & Hp1 & Hp2).
      exists (swap :: p1), p2. repeat split; [|done].
      constructor; [lia | done].
    + exists [], (swap :: rest). repeat split; [constructor |].
      intros e [= <-]. lia.
Qed.

Lemma insertItem_Permutation item prefix :
  insertItem comparefn item prefix ≡ₚ item :: prefix.
Proof.
  destruct (insertItem_split item prefix) as (p1 & p2 & -> & -> & _).
  by rewrite Permutation_middle.
Qed.

Lemma sortLeftwards_fold_Permutation l prefix :
  fold_left (fun p item => insertItem comparefn item p) l prefix ≡ₚ l ++ prefix.
Proof.
  revert prefix. induction l as [|x l IH]; intros prefix; simpl; [done |].
  rewrite IH, insertItem_Permutation. by rewrite Permutation_middle.
Qed.

Lemma sort_Permutation l : sort comparefn l ≡ₚ l.
Proof.
  unfold sort, sortLeftwards.
  rewrite reverse_Permutation, sortLeftwards_fold_Permutation.
  by rewrite app_nil_r.
Qed.

Lemma sort_elem_of l a : a ∈ sort comparefn l <-> a ∈ l.
Proof. by rewrite sort_Permutation. Qed.

Lemma sort_NoDup l : NoDup l -> NoDup (sort comparefn l).
Proof. by rewrite sort_Permutation. Qed.

Lemma sort_length l : length (sort comparefn l) = length l.
Proof. by rewrite sort_Permutation. Qed.

(** ** Pairs that the comparator does not ask to swap keep their order *)





(** ** No neighbours of the result ask to be swapped *)

Hypothesis comparefn_asym : forall a b, comparefn a b > 0 -> comparefn b a <= 0.

Lemma insertItem_Sorted item prefix :
  Sorted (fun a b => comparefn b a <= 0) prefix ->
  Sorted (fun a b => comparefn b a <= 0) (insertItem comparefn item prefix).
Proof.
  induction 1 as [|swap rest Hrest IH Hhd]; simpl.
  - repeat constructor.
  - destruct (comparefn swap item >? 0) eqn:Hc.
    + constructor; [done |].
      destruct Hhd as [|e rest' He]; simpl.
      * constructor. apply comparefn_asym. lia.
      * destruct (comparefn e item >? 0); constructor;
          [done | apply comparefn_asym; lia].
    + constructor; [by constructor |]. constructor. lia.
Qed.

Lemma sortLeftwards_Sorted l :
  Sorted (fun a b => comparefn b a <= 0) (sortLeftwards comparefn l).
Proof.
  unfold sortLeftwards. generalize (Sorted_nil (fun a b => comparefn b a <= 0)).
  generalize (@nil A) as prefix. induction l as [|x l IH]; intros prefix Hp;
    simpl; [done |].
  by apply IH, insertItem_Sorted.
Qed.

Lemma Sorted_lookup (R : A -> A -> Prop) l i a b :
  Sorted R l -> l !! i = Some a -> l !! S i = Some b -> R a b.
Proof.
  intros Hl. revert i. induction Hl as [|x l Hl IH Hhd]; intros i Ha Hb.
  - done.
  - destruct i as [|i]; simpl in *.
    + injection Ha as ->. destruct Hhd; simpl in *; [done |].
      by injection Hb as ->.
    + eauto.
Qed.

Lemma sort_neighbourly l : neighbourly comparefn (sort comparefn l).
Proof.
  intros i a b Ha Hb. unfold sort in *.
  apply reverse_lookup_Some in Ha as [Ha ?], Hb as [Hb ?].
  eapply (Sorted_lookup (fun a b => comparefn b a <= 0));
    [apply sortLeftwards_Sorted | exact Hb |].
  rewrite <- Ha. f_equal. lia.
Qed.
End SortFacts.

(** ** Elements that sort after all others *)

Section LateLast.
Context {A : Type} (comparefn : A -> A -> Z) (late : A -> bool).
Hypothesis late_after : forall e x,
  late e = true -> late x = false -> comparefn e x > 0.
Hypothesis early_before : forall e x,
  late e = false -> late x = true -> comparefn e x <= 0.

Lemma insertItem_late item bs ns :
  late item = true -> Forall (fun e => late e = false) ns ->
  insertItem comparefn item (bs ++ ns) = insertItem comparefn item bs ++ ns.
Proof.
  intros Hx Hns. induction bs as [|b bs IH]; simpl.
  - destruct Hns as [|e ns He _]; simpl; [done |].
    pose proof (early_before e item He Hx).
    by destruct (Z.gtb_spec (comparefn e item) 0); [lia |].
  - destruct (comparefn b item >? 0); [by rewrite IH | done].
Qed.

Lemma insertItem_early item bs ns :
  late item = false -> Forall (fun e => late e = true) bs ->
  insertItem comparefn item (bs ++ ns) = bs ++ insertItem comparefn item ns.
Proof.
  intros Hx. induction 1 as [|b bs Hb _ IH]; simpl; [done |].
  pose proof (late_after b item Hb Hx).
  destruct (Z.gtb_spec (comparefn b item) 0); [by rewrite IH | lia].
Qed.

Lemma sortLeftwards_fold_late_first l bs ns :
  Forall (fun e => late e = true) bs -> Forall (fun e => late e = false) ns ->
  exists bs' ns',
    fold_left (fun p item => insertItem comparefn item p) l (bs ++ ns) = bs' ++ ns'
    /\ Forall (fun e => late e = true) bs'
    /\ Forall (fun e => late e = false) ns'.
Proof.
  revert bs ns. induction l as [|x l IH]; intros bs ns Hbs Hns; simpl.
  - by exists bs, ns.
  - destruct (late x) eqn:Hx.
    + rewrite insertItem_late by done. apply IH; [|done].
      rewrite insertItem_Permutation. by constructor.
    + rewrite insertItem_early by done. apply IH; [done |].
      rewrite insertItem_Permutation. by constructor.
Qed.

Lemma sort_late_last l :
  exists ns bs, sort comparefn l = ns ++ bs
    /\ Forall (fun e => late e = false) ns
    /\ Forall (fun e => late e = true) bs.
Proof.
  destruct (sortLeftwards_fold_late_first l [] []) as (bs & ns & E & Hbs & Hns);
    [constructor | constructor |].
  exists (reverse ns), (reverse bs). unfold sort, sortLeftwards.
  simpl in E. rewrite E, reverse_app. by rewrite !Forall_reverse.
Qed.

Lemma sort_late_last_lookup l i j a b :
  sort comparefn l !! i = Some a -> sort comparefn l !! j = Some b ->
  late a = true -> late b = false -> (j < i)%nat.
Proof.
  destruct (sort_late_last l) as (ns & bs & -> & Hns & Hbs).
  rewrite Forall_forall in Hns, Hbs. intros Ha Hb La Lb.
  destruct (decide (i < length ns)%nat) as [Hi | Hi].
  { rewrite lookup_app_l in Ha by done.
    apply list_elem_of_lookup_2, Hns in Ha. congruence. }
  destruct (decide (j < length ns)%nat) as [Hj | Hj]; [lia |].
  rewrite lookup_app_r in Hb by lia.
  apply list_elem_of_lookup_2, Hbs in Hb. congruence.
Qed.
End LateLast.

(** ** Sorting one way, the other way, and back *)

(** Two comparators [c1] and [c2] over elements classified by [cls], where
    elements of class [TBlank] sort last under [c1], elements of two
    different other classes are never swapped by either comparator, and
    [c1] is a weak order inside each class on the elements of [l0]. *)
Section Resort.
Context {A : Type} `{EqDecision A}
  (c1 c2 : A -> A -> Z) (cls : A -> PType) (l0 : list A).

Hypothesis c1_asym : forall x y, c1 x y > 0 -> c1 y x <= 0.
Hypothesis c1_refl : forall x, c1 x x <= 0.
Hypothesis c1_trans : forall x y z, x ∈ l0 -> y ∈ l0 -> z ∈ l0 ->
  cls x = cls y -> cls y = cls z -> c1 x y <= 0 -> c1 y z <= 0 -> c1 x z <= 0.
Hypothesis c1_blank : forall x y, c1 x y <= 0 -> cls x = TBlank -> cls y = TBlank.
Hypothesis c1_gt : forall x y, c1 x y > 0 -> cls x <> TBlank -> cls y = cls x.
Hypothesis c12_diff : forall x y,
  cls x <> TBlank -> cls y <> TBlank -> cls x <> cls y -> c1 x y <= 0 /\ c2 x y <= 0.
Hypothesis c12_flip : forall x y, c1 x y <= 0 -> c2 x y > 0 -> c1 y x > 0.


Lemma neighbourly_blank l i n v w :
  neighbourly c1 l -> l !! i = Some v -> l !! (i + n)%nat = Some w ->
  cls v = TBlank -> cls w = TBlank.
Proof.
  intros Hl Hv. revert w. induction n as [|n IH]; intros w Hw Hb.
  - rewrite Nat.add_0_r in Hw. congruence.
  - destruct (l !! (i + n)%nat) as [e|] eqn:He.
    + apply (c1_blank e w); [|by apply IH].
      apply (Hl (i + n)%nat); [done |].
      by replace (S (i + n)) with (i + S n)%nat by lia.
    + apply lookup_ge_None in He. apply lookup_lt_Some in Hw. lia.
Qed.

Lemma neighbourly_same_class l i n v u :
  neighbourly c1 l -> Forall (fun x => x ∈ l0) l ->
  l !! i = Some v -> l !! (i + n)%nat = Some u ->
  (forall k w, (k <= n)%nat -> l !! (i + k)%nat = Some w -> cls w = cls v) ->
  c1 v u <= 0.
Proof.
  intros Hl Hin Hv. rewrite Forall_forall in Hin.
  revert u. induction n as [|n IH]; intros u Hu Hcls.
  - rewrite Nat.add_0_r in Hu. replace u with v by congruence. apply c1_refl.
  - destruct (l !! (i + n)%nat) as [e|] eqn:He.
    + assert (c1 v e <= 0) by (apply IH; [done | intros k w ? ?; apply (Hcls k w); [lia | done]]).
      assert (c1 e u <= 0).
      { apply (Hl (i + n)%nat); [done |].
        by replace (S (i + n)) with (i + S n)%nat by lia. }
      assert (cls e = cls v) by (apply (Hcls n); [lia | done]).
      assert (cls u = cls v) by (apply (Hcls (S n)); [lia | done]).
      apply (c1_trans v e u); try congruence;
        apply Hin; eapply list_elem_of_lookup_2; eauto.
    + apply lookup_ge_None in He. apply lookup_lt_Some in Hu. lia.
Qed.

Lemma find_other_class (l : list A) i n (t : PType) :
  (forall k w, (k <= n)%nat -> l !! (i + k)%nat = Some w -> cls w = t)
  \/ (exists k w, (k <= n)%nat /\ l !! (i + k)%nat = Some w /\ cls w <> t).
Proof.
  induction n as [|n [IH | (k & w & Hk & Hw & Hc)]].
  - destruct (l !! (i + 0)%nat) as [w|] eqn:Hw.
    + destruct (decide (cls w = t)) as [E | E].
      * left. intros k w' Hk Hw'. replace k with 0%nat in Hw' by lia. congruence.
      * right. exists 0%nat, w. done.
    + left. intros k w' Hk Hw'. replace k with 0%nat in Hw' by lia. congruence.
  - destruct (l !! (i + S n)%nat) as [w|] eqn:Hw.
    + destruct (decide (cls w = t)) as [E | E].
      * left. intros k w' Hk Hw'.
        destruct (decide (k = S n)) as [-> | Hne]; [congruence |].
        apply (IH k); [lia | done].
      * right. exists (S n), w. done.
    + left. intros k w' Hk Hw'.
      destruct (decide (k = S n)) as [-> | Hne]; [congruence |].
      apply (IH k); [lia | done].
  - right. exists k, w. split; [lia | done].
Qed.

(** Between two elements that [c1] would swap, a sorted list holds an
    element of another class; none of the three is blank. *)
Lemma neighbourly_other_class l v u :
  neighbourly c1 l -> Forall (fun x => x ∈ l0) l ->
  precedes l v u -> c1 v u > 0 ->
  exists w, precedes l v w /\ precedes l w u
    /\ cls v <> TBlank /\ cls u = cls v
    /\ cls w <> TBlank /\ cls w <> cls v.
Proof.
  intros Hl Hin (i & j & Hv & Hu & Hij) Hgt.
  replace j with (i + (j - i))%nat in Hu by lia.
  destruct (find_other_class l i (j - i) (cls v)) as [Hall | (k & w & Hk & Hw & Hc)].
  { pose proof (neighbourly_same_class l i (j - i) v u Hl Hin Hv Hu Hall). lia. }
  assert (cls v <> TBlank) as Hvb.
  { intros Hb. apply Hc. rewrite Hb. by apply (neighbourly_blank l i k v w). }
  assert (cls u = cls v) as Hcu by (by apply c1_gt).
  assert (k <> 0)%nat as Hk0.
  { intros ->. rewrite Nat.add_0_r in Hw. congruence. }
  assert (k <> j - i)%nat as Hkj by (intros ->; congruence).
  assert (cls w <> TBlank) as Hwb.
  { intros Hb. apply Hvb. rewrite <- Hcu.
    apply (neighbourly_blank l (i + k) (j - i - k) w u); auto.
    by replace (i + k + (j - i - k))%nat with (i + (j - i))%nat by lia. }
  exists w. repeat split; try done.
  - exists i, (i + k)%nat. repeat split; [done | done | lia].
  - exists (i + k)%nat, (i + (j - i))%nat. repeat split; [done | done | lia].
Qed.



End Resort.

(** * The comparator *)

Section Comparator.
Context `{Host}.
Variable colIndex : nat.
Implicit Types (a b x y z : Row) (d : Direction).

Lemma cellValue_cases x :
  cellValue colIndex x = PBlank
  \/ (exists n, cellValue colIndex x = PNumber n /\ isNaN n = false)
  \/ (exists s, cellValue colIndex x = PText s).
Proof. apply parseExcelValue_cases. Qed.

Lemma isBlankAt_cellType x :
  isBlankAt colIndex x = true <-> cellType colIndex x = TBlank.
Proof.
  unfold isBlankAt, cellType, cellValue.
  by destruct (parseExcelValue _).
Qed.

(** Case analysis on the parsed values of the cells [x] and [y] of a
    comparison: blank, a number [n] that is not NaN, or a text [s]. *)
Ltac cmp_cases x y nx Hnx sx ny Hny sy :=
  unfold compareRows, cellType, cellValue in *;
  let Ex := fresh "Ex" in let Ey := fresh "Ey" in
  destruct (parseExcelValue_cases (innerTextAt x colIndex))
    as [Ex | [(nx & Ex & Hnx) | (sx & Ex)]];
  destruct (parseExcelValue_cases (innerTextAt y colIndex))
    as [Ey | [(ny & Ey & Hny) | (sy & Ey)]];
  rewrite ?Ex, ?Ey in *; simpl in *.

Lemma strictNeq_diffSign n m :
  isNaN n = false -> isNaN m = false ->
  (strictNeq n m = false /\ strictNeq m n = false /\ SFcompare n m = Some Eq)
  \/ (strictNeq n m = true /\ strictNeq m n = true
      /\ diffSign n m = -1 /\ diffSign m n = 1 /\ SFcompare n m = Some Lt)
  \/ (strictNeq n m = true /\ strictNeq m n = true
      /\ diffSign n m = 1 /\ diffSign m n = -1 /\ SFcompare n m = Some Gt).
Proof.
  intros Hn Hm. destruct (SFcompare_total n m Hn Hm) as [c Hc].
  pose proof (SFcompare_swap n m) as Hs. rewrite Hc in Hs. simpl in Hs.
  unfold strictNeq, SFeqb, diffSign. rewrite Hc, Hs.
  destruct c; simpl; tauto.
Qed.

Lemma compareRows_blank_after d e x :
  isBlankAt colIndex e = true -> isBlankAt colIndex x = false ->
  compareRows colIndex d e x > 0.
Proof.
  unfold isBlankAt, compareRows.
  destruct (parseExcelValue (innerTextAt e colIndex));
    destruct (parseExcelValue (innerTextAt x colIndex)); simpl; intros;
    try discriminate; lia.
Qed.

Lemma compareRows_before_blank d e x :
  isBlankAt colIndex e = false -> isBlankAt colIndex x = true ->
  compareRows colIndex d e x <= 0.
Proof.
  unfold isBlankAt, compareRows.
  destruct (parseExcelValue (innerTextAt e colIndex));
    destruct (parseExcelValue (innerTextAt x colIndex)); simpl; intros;
    try discriminate; lia.
Qed.

Lemma compareRows_refl d x : compareRows colIndex d x x = 0.
Proof.
  unfold compareRows.
  destruct (parseExcelValue_cases (innerTextAt x colIndex))
    as [E | [(n & E & Hn) | (s & E)]]; rewrite E; simpl.
  - lia.
  - unfold strictNeq, SFeqb. rewrite SFcompare_refl by done. simpl. lia.
  - unfold JsString.eqb. rewrite bool_decide_eq_true_2 by done. simpl. lia.
Qed.

(** The branch taken on two cells of different types does not look at
    the direction. *)
Lemma compareRows_mixed d x y :
  cellType colIndex x <> cellType colIndex y ->
  compareRows colIndex d x y = if isBlankAt colIndex x then 1 else -1.
Proof.
  unfold isBlankAt, compareRows, cellType, cellValue.
  destruct (parseExcelValue (innerTextAt x colIndex));
    destruct (parseExcelValue (innerTextAt y colIndex)); simpl; congruence.
Qed.

Lemma compareRows_blank_le d x y :
  compareRows colIndex d x y <= 0 -> cellType colIndex x = TBlank ->
  cellType colIndex y = TBlank.
Proof.
  unfold compareRows, cellType, cellValue.
  destruct (parseExcelValue (innerTextAt x colIndex));
    destruct (parseExcelValue (innerTextAt y colIndex)); simpl;
    intros; try done; lia.
Qed.

Lemma compareRows_gt_type d x y :
  compareRows colIndex d x y > 0 -> cellType colIndex x <> TBlank ->
  cellType colIndex y = cellType colIndex x.
Proof.
  unfold compareRows, cellType, cellValue.
  destruct (parseExcelValue (innerTextAt x colIndex));
    destruct (parseExcelValue (innerTextAt y colIndex)); simpl;
    intros; try done; lia.
Qed.


Lemma eqb_sym (s t : jsstring) : JsString.eqb s t = JsString.eqb t s.
Proof. unfold JsString.eqb. apply bool_decide_ext. split; congruence. Qed.


(** Rows showing the same value are compared by their tags. *)
Lemma compareRows_tie d x y :
  sameValue (cellValue colIndex x) (cellValue colIndex y) = true ->
  compareRows colIndex d x y = rowIndex x - rowIndex y.
Proof.
  unfold compareRows, cellValue.
  destruct (parseExcelValue (innerTextAt x colIndex));
    destruct (parseExcelValue (innerTextAt y colIndex)); simpl;
    try done; intros E.
  - apply negb_true_iff in E. by rewrite E.
  - by rewrite E.
Qed.

Section Consistent.
Context `{!ConsistentHost H}.

Lemma localeCompare_gt_lt s t : localeCompare s t > 0 <-> localeCompare t s < 0.
Proof.
  pose proof (localeCompare_antisym s t).
  destruct (Z.sgn_spec (localeCompare s t)) as [[? ?] | [[? ?] | [? ?]]];
    destruct (Z.sgn_spec (localeCompare t s)) as [[? ?] | [[? ?] | [? ?]]];
    lia.
Qed.

Lemma compareRows_asym d x y :
  compareRows colIndex d x y > 0 -> compareRows colIndex d y x <= 0.
Proof.
  cmp_cases x y nx Hnx sx ny Hny sy; try lia.
  - destruct (strictNeq_diffSign nx ny Hnx Hny)
      as [(-> & -> & _) | [(-> & -> & ? & ? & _) | (-> & -> & ? & ? & _)]];
      destruct d; simpl; lia.
  - rewrite (eqb_sym sy sx). destruct (JsString.eqb sx sy); simpl; [lia |].
    pose proof (localeCompare_gt_lt sx sy).
    pose proof (localeCompare_gt_lt sy sx).
    destruct d; lia.
Qed.

(** Inside one type the comparator is a weak order also on rows showing
    equal values, as long as the collation separates different texts. *)
Lemma compareRows_trans_tags d (rows : list Row) x y z :
  separatedTexts colIndex rows -> x ∈ rows -> y ∈ rows -> z ∈ rows ->
  cellType colIndex x = cellType colIndex y ->
  cellType colIndex y = cellType colIndex z ->
  compareRows colIndex d x y <= 0 -> compareRows colIndex d y z <= 0 ->
  compareRows colIndex d x z <= 0.
Proof.
  intros Hsep Hx Hy Hz Txy Tyz Hxy Hyz.
  pose proof (Hsep x y) as Sxy. pose proof (Hsep y x) as Syx.
  pose proof (Hsep y z) as Syz. pose proof (Hsep x z) as Sxz.
  unfold compareRows, cellType, cellValue in *.
  destruct (parseExcelValue_cases (innerTextAt x colIndex))
    as [Ex | [(nx & Ex & Hnx) | (sx & Ex)]];
  destruct (parseExcelValue_cases (innerTextAt y colIndex))
    as [Ey | [(ny & Ey & Hny) | (sy & Ey)]];
  destruct (parseExcelValue_cases (innerTextAt z colIndex))
    as [Ez | [(nz & Ez & Hnz) | (sz & Ez)]];
  rewrite ?Ex, ?Ey, ?Ez in *; simpl in *; try discriminate.
  - lia.
  - destruct (strictNeq_diffSign nx ny Hnx Hny)
      as [(Exy & _ & Cxy) | [(Exy & _ & ? & ? & Cxy) | (Exy & _ & ? & ? & Cxy)]];
    destruct (strictNeq_diffSign ny nz Hny Hnz)
      as [(Eyz & _ & Cyz) | [(Eyz & _ & ? & ? & Cyz) | (Eyz & _ & ? & ? & Cyz)]];
    rewrite Exy in Hxy; rewrite Eyz in Hyz;
    destruct d; try lia;
    match goal with
    | C1 : SFcompare nx ny = Some ?c1, C2 : SFcompare ny nz = Some ?c2 |- _ =>
        let c := eval cbv in (composeCmp c1 c2) in
        match c with
        | Some ?c' =>
            pose proof (SFcompare_compose nx ny nz c1 c2 c' C1 C2 eq_refl) as Cxz;
            pose proof (SFcompare_swap nx nz) as Cs; rewrite Cxz in Cs;
            unfold strictNeq, SFeqb, diffSign; rewrite ?Cxz, ?Cs; simpl; lia
        end
    end.
  - specialize (Sxy sx sy Hx Hy eq_refl eq_refl).
    specialize (Syx sy sx Hy Hx eq_refl eq_refl).
    specialize (Syz sy sz Hy Hz eq_refl eq_refl).
    specialize (Sxz sx sz Hx Hz eq_refl eq_refl).
    pose proof (localeCompare_gt_lt sx sy). pose proof (localeCompare_gt_lt sy sx).
    unfold JsString.eqb in *.
    destruct (decide (sx = sy)) as [-> | Nxy];
      [rewrite (bool_decide_eq_true_2 (sy = sy)) in Hxy by done
      | rewrite (bool_decide_eq_false_2 (sx = sy)) in Hxy by done];
    (destruct (decide (sy = sz)) as [-> | Nyz];
      [rewrite (bool_decide_eq_true_2 (sz = sz)) in Hyz by done
      | rewrite (bool_decide_eq_false_2 (sy = sz)) in Hyz by done]);
    simpl in *; try done.
    + rewrite (bool_decide_eq_true_2 (sz = sz)) by done. simpl. lia.
    + rewrite (bool_decide_eq_false_2 (sy = sz)) by done. simpl. done.
    + rewrite (bool_decide_eq_false_2 (sx = sz)) by done. simpl. done.
    + destruct (decide (sx = sz)) as [-> | Nxz].
      * exfalso. apply Nxy.
        destruct d; [apply Sxy | symmetry; apply Syx]; lia.
      * rewrite (bool_decide_eq_false_2 (sx = sz)) by done. simpl.
        destruct d.
        -- by apply (localeCompare_trans sx sy sz).
        -- by apply (localeCompare_trans sz sy sx).
Qed.
End Consistent.
End Comparator.

(** * The click handler *)

Section Handler.
Context `{Host}.
Implicit Types (st : TableState) (rows body : list Row) (d : Direction).

Lemma filter_all {A} (P : A -> Prop) `{forall x, Decision (P x)} (l : list A) :
  Forall P l -> filter P l = l.
Proof.
  induction 1 as [|x l Hx _ IH]; [done |].
  by rewrite filter_cons_True, IH.
Qed.

Lemma filter_none {A} (P : A -> Prop) `{forall x, Decision (P x)} (l : list A) :
  Forall (fun x => ~ P x) l -> filter P l = [].
Proof.
  induction 1 as [|x l Hx _ IH]; [done |].
  by rewrite filter_cons_False.
Qed.

(** Appending the rows of [rows] one after the other leaves the other
    children in place and lines [rows] up after them. *)
Lemma reattach rows body :
  NoDup rows ->
  fold_left appendChild rows body = filter (fun r => r ∉ rows) body ++ rows.
Proof.
  intros Hnd. revert body.
  induction Hnd as [|r rs Hr Hnd IH]; intros body; simpl.
  - rewrite app_nil_r, filter_all; [done |].
    apply Forall_forall. intros x _. apply not_elem_of_nil.
  - rewrite IH. unfold appendChild.
    rewrite filter_app, filter_singleton_True by done.
    rewrite list_filter_filter, <- app_assoc. simpl. f_equal.
    apply list_filter_iff. intros x. rewrite not_elem_of_cons. tauto.
Qed.

Lemma wellTagged_NoDup st : wellTagged st -> NoDup (tbodyRows st).
Proof. apply NoDup_fmap_1. Qed.

Lemma tbodyRows_parts st : tbodyRows st = headerPart st ++ sortedSlice st.
Proof.
  unfold headerPart, sortedSlice. destruct (hasTHead st); [done |].
  by rewrite take_drop.
Qed.

Lemma sortedSlice_NoDup st : wellTagged st -> NoDup (sortedSlice st).
Proof.
  intros Hst%wellTagged_NoDup. rewrite tbodyRows_parts in Hst.
  by apply NoDup_app in Hst as (_ & _ & ?).
Qed.

Lemma sortColumn_rows colIndex d st :
  wellTagged st ->
  tbodyRows (sortColumn colIndex d st)
  = headerPart st ++ sort (compareRows colIndex d) (sortedSlice st).
Proof.
  intros Hst. unfold sortColumn. simpl.
  rewrite reattach by (by apply sort_NoDup, sortedSlice_NoDup).
  f_equal. pose proof (wellTagged_NoDup st Hst) as Hnd.
  rewrite (tbodyRows_parts st) in *. rewrite filter_app.
  rewrite (filter_none _ (sortedSlice st)), app_nil_r.
  - apply filter_all, Forall_forall. intros r Hr.
    rewrite sort_elem_of. apply NoDup_app in Hnd as (_ & Hd & _). by apply Hd.
  - apply Forall_forall. intros r Hr Hn. apply Hn. by apply sort_elem_of.
Qed.

Lemma headerPart_sortColumn colIndex d st :
  wellTagged st -> headerPart (sortColumn colIndex d st) = headerPart st.
Proof.
  intros Hst. unfold headerPart at 1.
  rewrite sortColumn_rows by done. unfold headerPart, sortedSlice. simpl.
  destruct (hasTHead st); [done |].
  by destruct (tbodyRows st) as [|h rest].
Qed.

Lemma sortedSlice_sortColumn colIndex d st :
  wellTagged st ->
  sortedSlice (sortColumn colIndex d st)
  = sort (compareRows colIndex d) (sortedSlice st).
Proof.
  intros Hst. unfold sortedSlice at 1.
  rewrite sortColumn_rows by done. unfold headerPart, sortedSlice. simpl.
  destruct (hasTHead st); [done |].
  by destruct (tbodyRows st) as [|h rest].
Qed.

Lemma sortColumn_Permutation colIndex d st :
  wellTagged st -> tbodyRows (sortColumn colIndex d st) ≡ₚ tbodyRows st.
Proof.
  intros Hst. rewrite sortColumn_rows by done.
  by rewrite sort_Permutation, <- tbodyRows_parts.
Qed.

Lemma sortColumn_wellTagged colIndex d st :
  wellTagged st -> wellTagged (sortColumn colIndex d st).
Proof.
  intros Hst. unfold wellTagged. by rewrite sortColumn_Permutation.
Qed.

Lemma click_wellTagged colIndex st : wellTagged st -> wellTagged (click colIndex st).
Proof.
  intros Hst. unfold click. destruct (sortState st !! colIndex); [|done].
  by apply sortColumn_wellTagged.
Qed.

Lemma click_hasTHead colIndex st : hasTHead (click colIndex st) = hasTHead st.
Proof. unfold click. by destruct (sortState st !! colIndex). Qed.

Lemma click_Permutation colIndex st :
  wellTagged st -> tbodyRows (click colIndex st) ≡ₚ tbodyRows st.
Proof.
  intros Hst. unfold click. destruct (sortState st !! colIndex); [|done].
  by apply sortColumn_Permutation.
Qed.

Lemma click_headerPart colIndex st :
  wellTagged st -> headerPart (click colIndex st) = headerPart st.
Proof.
  intros Hst. unfold click. destruct (sortState st !! colIndex); [|done].
  by apply headerPart_sortColumn.
Qed.

Lemma click_sortState colIndex d st :
  sortState st !! colIndex = Some d ->
  click colIndex st = sortColumn colIndex d st
  /\ sortState (click colIndex st) !! colIndex = Some (toggle d).
Proof.
  intros Hd. unfold click. rewrite Hd. split; [done |].
  simpl. apply lookup_insert_eq.
Qed.

Lemma click_sortState_other colIndex other st :
  colIndex <> other ->
  sortState (click colIndex st) !! other = sortState st !! other.
Proof.
  intros Hne. unfold click. destruct (sortState st !! colIndex); [|done].
  simpl. by apply lookup_insert_ne.
Qed.

Lemma setup_wellTagged table st : setup table = Some st -> wellTagged st.
Proof.
  unfold setup. destruct (tBodies table) as [|tbody others]; [done |].
  destruct (headerCells table tbody) as [|c0 cs]; [done |]. intros [= <-].
  unfold wellTagged. simpl. apply NoDup_alt. intros i j z.
  rewrite !list_lookup_fmap, !list_lookup_imap.
  destruct (tbody !! i), (tbody !! j); simpl; intros [= <-] [= E]; lia.
Qed.

Lemma setup_sortState table tbody others st colIndex :
  setup table = Some st -> tBodies table = tbody :: others ->
  (colIndex < length (headerCells table tbody))%nat ->
  sortState st !! colIndex = Some Desc.
Proof.
  unfold setup. intros Hs Hb Hc. rewrite Hb in Hs.
  destruct (headerCells table tbody) as [|c0 cs] eqn:Hh; [done |].
  injection Hs as <-.
  change ((list_to_map ((fun c => (c, Desc)) <$> seq 0 (length (c0 :: cs)))
             : gmap nat Direction) !! colIndex = Some Desc).
  apply elem_of_list_to_map_1.
  - assert (forall l : list nat, ((fun c => (c, Desc)) <$> l).*1 = l) as ->.
    { induction l as [|x l IH]; [done |]. by rewrite !fmap_cons, IH. }
    apply NoDup_seq.
  - apply list_elem_of_fmap. exists colIndex. split; [done |].
    apply elem_of_seq. simpl in *. lia.
Qed.
End Handler.

(** * Properties of a click *)

Section Clicks.
Context `{Host}.
Implicit Types (st : TableState) (d : Direction).

(** C3. Blanks sort last whatever the direction: after a click on a
    column, among the rows handed to the sort (all body rows but an
    embedded header row), every row whose cell in that column parses as
    blank comes after every row whose cell parses as a number or a text. *)
Theorem blanks_sorted_last st colIndex d :
  wellTagged st -> sortState st !! colIndex = Some d ->
  forall i j a b,
    sortedSlice (click colIndex st) !! i = Some a ->
    sortedSlice (click colIndex st) !! j = Some b ->
    isBlankAt colIndex a = true -> isBlankAt colIndex b = false ->
    (j < i)%nat.
Proof.
  intros Hst Hd i j a b.
  destruct (click_sortState colIndex d st Hd) as [-> _].
  rewrite sortedSlice_sortColumn by done.
  apply sort_late_last_lookup.
  - apply compareRows_blank_after.
  - apply compareRows_before_blank.
Qed.

Lemma clicks_invariant cols st :
  wellTagged st ->
  wellTagged (clicks cols st)
  /\ hasTHead (clicks cols st) = hasTHead st
  /\ headerPart (clicks cols st) = headerPart st
  /\ tbodyRows (clicks cols st) ≡ₚ tbodyRows st.
Proof.
  revert st. induction cols as [|c cols IH]; intros st Hst; simpl; [done |].
  destruct (IH (click c st) (click_wellTagged c st Hst)) as (? & E1 & E2 & E3).
  rewrite E1, E2, E3. repeat split; [done | | |].
  - apply click_hasTHead.
  - by apply click_headerPart.
  - by apply click_Permutation.
Qed.

(** C9. When the table has no header section, the first row of the body
    is the header: a click re-attaches the sorted remaining rows after
    it, and after any number of clicks it is still the first row, the
    others being a permutation of the remaining rows. *)
Theorem embedded_header_stays st header rest :
  wellTagged st -> hasTHead st = false -> tbodyRows st = header :: rest ->
  (forall colIndex d, sortState st !! colIndex = Some d ->
     tbodyRows (click colIndex st)
     = header :: sort (compareRows colIndex d) rest)
  /\ (forall cols, exists rest',
        tbodyRows (clicks cols st) = header :: rest' /\ rest' ≡ₚ rest).
Proof.
  intros Hst Hh Hrows. split.
  - intros colIndex d Hd.
    destruct (click_sortState colIndex d st Hd) as [-> _].
    rewrite sortColumn_rows by done.
    unfold headerPart, sortedSlice. by rewrite Hh, Hrows.
  - intros cols.
    destruct (clicks_invariant cols st Hst) as (_ & Eh & Ep & Eperm).
    pose proof (tbodyRows_parts (clicks cols st)) as Erows.
    rewrite Ep in Erows. unfold headerPart in Erows.
    rewrite Hh, Hrows in Erows. simpl in Erows.
    exists (sortedSlice (clicks cols st)). split; [done |].
    rewrite Erows, Hrows in Eperm. by apply Permutation_cons_inv in Eperm.
Qed.

(** C5. Every column with a header cell starts in the state "desc next";
    clicking the same header repeatedly sorts descending, then ascending,
    then descending again. *)
Theorem direction_toggle table tbody others st colIndex :
  setup table = Some st -> tBodies table = tbody :: others ->
  (colIndex < length (headerCells table tbody))%nat ->
  let st1 := click colIndex st in
  let st2 := click colIndex st1 in
  let st3 := click colIndex st2 in
  sortState st !! colIndex = Some Desc
  /\ st1 = sortColumn colIndex Desc st
  /\ st2 = sortColumn colIndex Asc st1
  /\ st3 = sortColumn colIndex Desc st2
  /\ sortState st3 !! colIndex = Some Asc.
Proof.
  intros Hs Hb Hc st1 st2 st3.
  pose proof (setup_sortState table tbody others st colIndex Hs Hb Hc) as H0.
  destruct (click_sortState colIndex Desc st H0) as [E1 H1].
  destruct (click_sortState colIndex Asc st1 H1) as [E2 H2].
  destruct (click_sortState colIndex Desc st2 H2) as [E3 H3].
  done.
Qed.

(** C8. The parser returns a value on every input: blank, a number that
    is not NaN, or a text.  A row without a cell at the clicked column
    yields [undefined], which is parsed like the empty string, as blank;
    the comparison with any other row then has a result, placing the row
    after a row with a value and by tag among the blank ones. *)
Theorem missing_cell_is_blank row colIndex :
  cells row !! colIndex = None ->
  (forall text : option jsstring,
     parseExcelValue text = PBlank
     \/ (exists n, parseExcelValue text = PNumber n /\ isNaN n = false)
     \/ (exists s, parseExcelValue text = PText s))
  /\ parseExcelValue (innerTextAt row colIndex) = parseExcelValue (Some [])
  /\ cellValue colIndex row = PBlank
  /\ (forall d other, isBlankAt colIndex other = false ->
        compareRows colIndex d row other = 1
        /\ compareRows colIndex d other row = -1)
  /\ (forall d other, isBlankAt colIndex other = true ->
        compareRows colIndex d row other = rowIndex row - rowIndex other).
Proof.
  intros Hmiss. split; [apply parseExcelValue_cases |].
  assert (parseExcelValue None = PBlank) as E by reflexivity.
  unfold cellValue, compareRows, isBlankAt, innerTextAt. rewrite Hmiss, E.
  split; [reflexivity |]. split; [reflexivity |].
  split; intros d other;
    destruct (parseExcelValue (cells other !! colIndex)); done.
Qed.

(** The header row embedded in the body is no part of the sort: above a
    column whose header cell is empty it stays first, before the rows
    showing a value. *)
Example embedded_header_empty_cell :
  tbodyRows (click 0 (stateOf cornerTable))
  = [mkRow 0 [emptyText; str "Qty"]; mkRow 2 [str "2"; str "7"];
     mkRow 1 [str "1"; str "5"]]
  /\ sortedSlice (click 0 (stateOf cornerTable))
     = [mkRow 2 [str "2"; str "7"]; mkRow 1 [str "1"; str "5"]]
  /\ isBlankAt 0 (mkRow 0 [emptyText; str "Qty"]) = true.
Proof. repeat split; vm_compute; reflexivity. Qed.

Lemma sameValue_sym (v w : ParsedValue) : sameValue v w = sameValue w v.
Proof.
  destruct v as [|x|s], w as [|y|t]; simpl; try done.
  - unfold strictNeq, SFeqb. rewrite (SFcompare_swap x y).
    by destruct (SFcompare x y) as [[]|].
  - apply eqb_sym.
Qed.

(** ** Rows showing the same value *)

(** When the sort leaves a row after a row showing the same value and
    tagged higher, a row showing a value of the other type stands between
    the two. *)
Lemma tied_rows_barrier `{!ConsistentHost H} colIndex d rows a b :
  separatedTexts colIndex rows ->
  sameValue (cellValue colIndex a) (cellValue colIndex b) = true ->
  rowIndex a < rowIndex b ->
  precedes (sort (compareRows colIndex d) rows) b a ->
  exists w,
    precedes (sort (compareRows colIndex d) rows) b w
    /\ precedes (sort (compareRows colIndex d) rows) w a
    /\ cellType colIndex b <> TBlank
    /\ cellType colIndex w <> TBlank
    /\ cellType colIndex w <> cellType colIndex b.
Proof.
  intros Hsep Hsame Hlt Hba.
  assert (compareRows colIndex d b a > 0) as Hgt.
  { rewrite compareRows_tie by (by rewrite sameValue_sym). lia. }
  destruct (neighbourly_other_class (compareRows colIndex d)
              (cellType colIndex) rows)
    with (l := sort (compareRows colIndex d) rows) (v := b) (u := a)
    as (w & Hbw & Hwa & Hbb & _ & Hwb & Hwc); auto.
  - intros x. by rewrite compareRows_refl.
  - intros x y z. by apply compareRows_trans_tags.
  - apply compareRows_blank_le.
  - apply compareRows_gt_type.
  - apply sort_neighbourly. intros x y. by apply compareRows_asym.
  - apply Forall_forall. intros x. by rewrite sort_elem_of.
  - by exists w.
Qed.

(** X8. After a click, two sorted rows showing the same value stand in the
    order of their tags, unless a row showing a value of the other type
    stands between them. *)
Theorem ties_apart_only_across_types `{!ConsistentHost H} st colIndex d a b :
  wellTagged st -> sortState st !! colIndex = Some d ->
  separatedTexts colIndex (sortedSlice st) ->
  a ∈ sortedSlice st -> b ∈ sortedSlice st ->
  sameValue (cellValue colIndex a) (cellValue colIndex b) = true ->
  rowIndex a < rowIndex b ->
  precedes (sortedSlice (click colIndex st)) a b
  \/ exists w,
       precedes (sortedSlice (click colIndex st)) b w
       /\ precedes (sortedSlice (click colIndex st)) w a
       /\ cellType colIndex b <> TBlank
       /\ cellType colIndex w <> TBlank
       /\ cellType colIndex w <> cellType colIndex b.
Proof.
  intros Hst Hd Hsep Ha Hb Hsame Hlt.
  destruct (click_sortState colIndex d st Hd) as [-> _].
  rewrite sortedSlice_sortColumn by done.
  assert (a <> b) as Hne by (intros ->; lia).
  destruct (precedes_total (sort (compareRows colIndex d) (sortedSlice st)) a b)
    as [? | Hba]; auto; try (by apply sort_elem_of).
  right. by apply tied_rows_barrier.
Qed.

(** X7. On a column that does not mix numbers and texts, rows showing the
    same value come out in the order of their tags, whatever the order of
    the body before the click. *)
Theorem stable_on_uniform_column `{!ConsistentHost H} st colIndex d a b :
  wellTagged st -> sortState st !! colIndex = Some d ->
  separatedTexts colIndex (sortedSlice st) ->
  uniformColumn colIndex (sortedSlice st) ->
  a ∈ sortedSlice st -> b ∈ sortedSlice st ->
  sameValue (cellValue colIndex a) (cellValue colIndex b) = true ->
  rowIndex a < rowIndex b ->
  precedes (sortedSlice (click colIndex st)) a b.
Proof.
  intros Hst Hd Hsep Huni Ha Hb Hsame Hlt.
  destruct (click_sortState colIndex d st Hd) as [-> _].
  rewrite sortedSlice_sortColumn by done.
  assert (a <> b) as Hne by (intros ->; lia).
  destruct (precedes_total (sort (compareRows colIndex d) (sortedSlice st)) a b)
    as [? | Hba]; auto; try (by apply sort_elem_of).
  exfalso.
  destruct (tied_rows_barrier colIndex d _ a b Hsep Hsame Hlt Hba)
    as (w & Hbw & _ & Hbb & Hwb & Hwc).
  apply Hwc. apply Huni; auto.
  apply precedes_elem_of in Hbw as [_ Hw]. by apply sort_elem_of in Hw.
Qed.


End Clicks.

(** * Number against text *)

Section NumberAgainstText.
Context `{Host}.

(** Whatever the order of the arguments and the direction, a comparison
    of a number cell and a text cell answers -1: "keep the first
    argument first". *)
Lemma compareRows_number_text colIndex d x y :
  cellType colIndex x = TNumber -> cellType colIndex y = TText ->
  compareRows colIndex d x y = -1 /\ compareRows colIndex d y x = -1.
Proof.
  unfold cellType, cellValue, compareRows.
  destruct (parseExcelValue (innerTextAt x colIndex));
    destruct (parseExcelValue (innerTextAt y colIndex)); done.
Qed.

(** C4. The comparator is not antisymmetric: for a row showing "10" and
    a row showing "abc" it answers -1 for both orders of the arguments,
    in both directions. *)
Theorem comparator_not_antisymmetric :
  forall d, compareRows 0 d numberRow textRow = -1
            /\ compareRows 0 d textRow numberRow = -1.
Proof. intros []; split; vm_compute; reflexivity. Qed.

(** The comparator answers alike, position by position, on the column
    loaded as "abc", "10", empty and on the column loaded as "10", "abc",
    empty:
    a sort that sees its rows through the comparator only treats both
    alike and leaves the text first on one of them. *)
Lemma precedence_orders_same_answers d i j a1 b1 a2 b2 :
  textFirstRows !! i = Some a1 -> textFirstRows !! j = Some b1 ->
  numberFirstRows !! i = Some a2 -> numberFirstRows !! j = Some b2 ->
  compareRows 0 d a1 b1 = compareRows 0 d a2 b2.
Proof.
  destruct i as [|[|[|i]]], j as [|[|[|j]]]; simpl;
    try discriminate; intros [= <-] [= <-] [= <-] [= <-];
    destruct d; vm_compute; reflexivity.
Qed.



(** The example of the specification: a descending sort of the rows
    (A,5), (B,3), (C,5) on the numeric column gives (A,5), (C,5), (B,3). *)
Example ties_example :
  cells <$> tbodyRows (click 1 (stateOf tiesTable))
  = [[str "A"; str "5"]; [str "C"; str "5"]; [str "B"; str "3"]].
Proof. vm_compute. reflexivity. Qed.
End NumberAgainstText.

(** * The code-unit host *)

Lemma codeUnitCompare_antisym a b :
  Z.sgn (codeUnitCompare b a) = - Z.sgn (codeUnitCompare a b).
Proof.
  revert b. induction a as [|x a IH]; intros [|y b]; simpl; try done.
  rewrite (N.compare_antisym x y). destruct (x ?= y)%N; simpl; auto.
Qed.

Lemma codeUnitCompare_trans a b c :
  codeUnitCompare a b <= 0 -> codeUnitCompare b c <= 0 ->
  codeUnitCompare a c <= 0.
Proof.
  revert b c. induction a as [|x a IH]; intros [|y b] [|z c]; simpl; try lia.
  destruct (N.compare_spec x y), (N.compare_spec y z), (N.compare_spec x z);
    subst; try lia; eauto.
Qed.

#[global] Instance codeUnitHost_consistent : ConsistentHost codeUnitHost.
Proof.
  split; [apply codeUnitCompare_antisym | apply codeUnitCompare_trans].
Qed.

(** * Instances on the sample tables *)

Lemma parseExcelValue_all_formatting_witness :
  trim [rupee; comma; percent] <> []
  /\ Forall (fun c => isFormatting c = true) (trim [rupee; comma; percent])
  /\ parseExcelValue (H := codeUnitHost) (Some [rupee; comma; percent])
     = PNumber (S754_zero false).
Proof.
  assert (trim [rupee; comma; percent] <> []) as H1 by (vm_compute; discriminate).
  assert (Forall (fun c => isFormatting c = true) (trim [rupee; comma; percent]))
    as H2 by (repeat constructor).
  split; [exact H1 |]. split; [exact H2 |].
  exact (proj2 (parseExcelValue_all_formatting (H := codeUnitHost)
                  [rupee; comma; percent] H1 H2)).
Defined.

Lemma blanks_sorted_last_witness :
  wellTagged (stateOf embeddedHeaderTable)
  /\ sortState (stateOf embeddedHeaderTable) !! 1%nat = Some Desc
  /\ forall i j a b,
       sortedSlice (click (H := codeUnitHost) 1 (stateOf embeddedHeaderTable)) !! i = Some a ->
       sortedSlice (click (H := codeUnitHost) 1 (stateOf embeddedHeaderTable)) !! j = Some b ->
       isBlankAt (H := codeUnitHost) 1 a = true ->
       isBlankAt (H := codeUnitHost) 1 b = false ->
       (j < i)%nat.
Proof.
  assert (wellTagged (stateOf embeddedHeaderTable)) as H1
    by (unfold wellTagged; apply (bool_decide_unpack _); vm_compute; exact I).
  assert (sortState (stateOf embeddedHeaderTable) !! 1%nat = Some Desc) as H2
    by (vm_compute; reflexivity).
  split; [exact H1 |]. split; [exact H2 |].
  exact (blanks_sorted_last (H := codeUnitHost) _ 1%nat Desc H1 H2).
Defined.

Lemma embedded_header_stays_witness :
  wellTagged (stateOf embeddedHeaderTable)
  /\ hasTHead (stateOf embeddedHeaderTable) = false
  /\ tbodyRows (stateOf embeddedHeaderTable) = embeddedHeaderRow :: embeddedDataRows
  /\ forall cols, exists rest',
       tbodyRows (clicks (H := codeUnitHost) cols (stateOf embeddedHeaderTable))
       = embeddedHeaderRow :: rest'
       /\ rest' ≡ₚ embeddedDataRows.
Proof.
  assert (wellTagged (stateOf embeddedHeaderTable)) as H1
    by (unfold wellTagged; apply (bool_decide_unpack _); vm_compute; exact I).
  assert (hasTHead (stateOf embeddedHeaderTable) = false) as H2
    by (vm_compute; reflexivity).
  assert (tbodyRows (stateOf embeddedHeaderTable)
          = embeddedHeaderRow :: embeddedDataRows) as H3
    by (vm_compute; reflexivity).
  split; [exact H1 |]. split; [exact H2 |]. split; [exact H3 |].
  exact (proj2 (embedded_header_stays (H := codeUnitHost) _ _ _ H1 H2 H3)).
Defined.

Lemma direction_toggle_witness :
  setup tiesTable = Some (stateOf tiesTable)
  /\ (1 < length (headerCells tiesTable
                    [[str "A"; str "5"]; [str "B"; str "3"]; [str "C"; str "5"]]))%nat
  /\ sortState (click (H := codeUnitHost) 1
       (click (H := codeUnitHost) 1
          (click (H := codeUnitHost) 1 (stateOf tiesTable)))) !! 1%nat = Some Asc.
Proof.
  assert (setup tiesTable = Some (stateOf tiesTable)) as H1
    by (vm_compute; reflexivity).
  assert (tBodies tiesTable
          = [[str "A"; str "5"]; [str "B"; str "3"]; [str "C"; str "5"]] :: [])
    as H2 by reflexivity.
  assert (1 < length (headerCells tiesTable
                    [[str "A"; str "5"]; [str "B"; str "3"]; [str "C"; str "5"]]))%nat
    as H3 by (vm_compute; lia).
  split; [exact H1 |]. split; [exact H3 |].
  exact (proj2 (proj2 (proj2 (proj2
           (direction_toggle (H := codeUnitHost) _ _ _ _ 1%nat H1 H2 H3))))).
Defined.

Lemma missing_cell_is_blank_witness :
  cells (mkRow 5 [str "e"]) !! 1%nat = None
  /\ cellValue (H := codeUnitHost) 1 (mkRow 5 [str "e"]) = PBlank.
Proof.
  assert (cells (mkRow 5 [str "e"]) !! 1%nat = None) as H1 by reflexivity.
  split; [exact H1 |].
  exact (proj1 (proj2 (proj2
           (missing_cell_is_blank (H := codeUnitHost) _ 1%nat H1)))).
Defined.


(** * Set-up and sequences of clicks *)

Section SetupAndClicks.
Context `{Host}.
Implicit Types (st : TableState) (d : Direction).

(** X1. The set-up keeps the cells of every body row and tags each row with
    its position, the header row embedded in the body included; the
    columns with a listener are those of the header cells. *)
Theorem setup_rows table tbody others st :
  setup table = Some st -> tBodies table = tbody :: others ->
  cells <$> tbodyRows st = tbody
  /\ (forall i r, tbodyRows st !! i = Some r -> rowIndex r = Z.of_nat i)
  /\ (forall colIndex,
        is_Some (sortState st !! colIndex)
        <-> (colIndex < length (headerCells table tbody))%nat).
Proof.
  intros Hs Hb. pose proof Hs as Hsetup. unfold setup in Hs. rewrite Hb in Hs.
  destruct (headerCells table tbody) as [|c0 cs] eqn:Hh; [done |].
  injection Hs as Hst. repeat split.
  - rewrite <- Hst. cbn [tbodyRows]. apply list_eq. intros i.
    rewrite list_lookup_fmap, list_lookup_imap. by destruct (tbody !! i).
  - intros i r. rewrite <- Hst. cbn [tbodyRows]. rewrite list_lookup_imap.
    destruct (tbody !! i); simpl; [|done]. by intros [= <-].
  - intros [d Hd].
    destruct (decide (colIndex < length (c0 :: cs))%nat) as [? | Hge]; [done |].
    exfalso. rewrite <- Hst in Hd.
    change ((list_to_map ((fun c => (c, Desc)) <$> seq 0 (length (c0 :: cs)))
               : gmap nat Direction) !! colIndex = Some d) in Hd.
    apply elem_of_list_to_map_2, list_elem_of_fmap in Hd as (c & [= -> _] & Hc).
    apply elem_of_seq in Hc. lia.
  - intros Hc. exists Desc.
    apply (setup_sortState table tbody others st colIndex Hsetup Hb).
    by rewrite Hh.
Qed.

(** X3. After any sequence of clicks on a table that was set up, the body
    holds the rows it was loaded with, each once, with their cells and
    tags: no click adds, drops or alters a row. *)
Theorem clicks_keep_rows table st cols :
  setup table = Some st ->
  tbodyRows (clicks cols st) ≡ₚ tbodyRows st
  /\ NoDup (tbodyRows (clicks cols st))
  /\ hasTHead (clicks cols st) = hasTHead st.
Proof.
  intros Hs%setup_wellTagged.
  destruct (clicks_invariant cols st Hs) as (Hw & Hh & _ & Hp).
  split; [done |]. split; [by apply wellTagged_NoDup | done].
Qed.

Lemma clicksOn_cons colIndex c cols :
  clicksOn colIndex (c :: cols)
  = if decide (c = colIndex) then S (clicksOn colIndex cols)
    else clicksOn colIndex cols.
Proof. unfold clicksOn. rewrite filter_cons. by case_decide. Qed.

Lemma directionAfter_S d n : directionAfter d (S n) = directionAfter (toggle d) n.
Proof.
  unfold directionAfter. rewrite Nat.even_succ, <- Nat.negb_even.
  destruct (Nat.even n), d; done.
Qed.

(** X4. The next direction of a column depends on the number of clicks made on
    its own header only: it is flipped by each of them, and clicks on the
    other headers leave it alone. *)
Theorem direction_parity st colIndex d cols :
  sortState st !! colIndex = Some d ->
  sortState (clicks cols st) !! colIndex
  = Some (directionAfter d (clicksOn colIndex cols)).
Proof.
  revert st d. induction cols as [|c cols IH]; intros st d Hd; simpl; [done |].
  rewrite clicksOn_cons. case_decide as Hc.
  - subst c. destruct (click_sortState colIndex d st Hd) as [_ Hd'].
    rewrite (IH _ _ Hd'). by rewrite directionAfter_S.
  - apply IH. by rewrite click_sortState_other.
Qed.

(** X2. When the header section exists but has no row, the header cells are
    those of the first body row, and that row is handed to the sort with
    the others: a click on a column where its cell is blank and another
    row shows a value moves it away from the top. *)
Theorem empty_thead_sorts_header table header rest others st colIndex :
  setup table = Some st -> tHead table = Some [] ->
  tBodies table = (header :: rest) :: others ->
  (colIndex < length header)%nat ->
  head (tbodyRows st) = Some (mkRow 0 header)
  /\ tbodyRows (click colIndex st)
     = sort (compareRows colIndex Desc) (tbodyRows st)
  /\ (isBlankAt colIndex (mkRow 0 header) = true ->
      (exists r, r ∈ tbodyRows st /\ isBlankAt colIndex r = false) ->
      head (tbodyRows (click colIndex st)) <> Some (mkRow 0 header)).
Proof.
  intros Hs Hth Hb Hc.
  assert (headerCells table (header :: rest) = header) as Hh
    by (unfold headerCells; by rewrite Hth).
  pose proof (setup_wellTagged table st Hs) as Hw.
  pose proof (setup_sortState table _ _ st colIndex Hs Hb) as Hd.
  rewrite Hh in Hd. specialize (Hd Hc).
  assert (hasTHead st = true /\ head (tbodyRows st) = Some (mkRow 0 header))
    as [Hhas Hhead].
  { unfold setup in Hs. rewrite Hb, Hh in Hs.
    destruct header; [simpl in Hc; lia |]. injection Hs as <-.
    split; [|done]. cbn [hasTHead]. rewrite Hth. by apply bool_decide_eq_true_2. }
  assert (tbodyRows (click colIndex st)
          = sort (compareRows colIndex Desc) (tbodyRows st)) as Hrows.
  { destruct (click_sortState colIndex Desc st Hd) as [-> _].
    rewrite sortColumn_rows by done. unfold headerPart, sortedSlice.
    by rewrite Hhas. }
  split; [done |]. split; [done |].
  intros Hblank (r & Hr & Hnb) Hfirst. rewrite Hrows in Hfirst.
  assert (r ∈ sort (compareRows colIndex Desc) (tbodyRows st)) as Hr'
    by (by apply sort_elem_of).
  apply list_elem_of_lookup_1 in Hr' as [j Hj].
  assert (sort (compareRows colIndex Desc) (tbodyRows st) !! 0%nat
          = Some (mkRow 0 header)) as H0.
  { by destruct (sort (compareRows colIndex Desc) (tbodyRows st)). }
  pose proof (sort_late_last_lookup (compareRows colIndex Desc)
                (isBlankAt colIndex)
                (compareRows_blank_after colIndex Desc)
                (compareRows_before_blank colIndex Desc)
                _ _ _ _ _ H0 Hj Hblank Hnb).
  lia.
Qed.
End SetupAndClicks.

(** * What the parser ignores *)

Section ParserIgnores.
Context `{Host}.
Implicit Types (s t ws : jsstring).

Lemma trimStart_app_space ws s :
  Forall (fun c => isWhiteSpace c = true) ws -> trimStart (ws ++ s) = trimStart s.
Proof. induction 1 as [|c ws Hc _ IH]; simpl; [done | by rewrite Hc]. Qed.

Lemma trimStart_all_space ws :
  Forall (fun c => isWhiteSpace c = true) ws -> trimStart ws = [].
Proof.
  intros Hws. rewrite <- (app_nil_r ws). by rewrite trimStart_app_space.
Qed.

Lemma trimStart_app s t :
  trimStart (s ++ t) = if decide (trimStart s = []) then trimStart t
                       else trimStart s ++ t.
Proof.
  induction s as [|c s IH]; simpl; [done |].
  destruct (isWhiteSpace c); [done |]. by case_decide.
Qed.

Lemma trimEnd_app_space s ws :
  Forall (fun c => isWhiteSpace c = true) ws -> trimEnd (s ++ ws) = trimEnd s.
Proof.
  intros Hws. unfold trimEnd. rewrite reverse_app, trimStart_app_space; [done |].
  by apply Forall_reverse.
Qed.

Lemma trim_app_space ws1 s ws2 :
  Forall (fun c => isWhiteSpace c = true) ws1 ->
  Forall (fun c => isWhiteSpace c = true) ws2 ->
  trim (ws1 ++ s ++ ws2) = trim s.
Proof.
  intros H1 H2. unfold trim. rewrite trimStart_app_space by done.
  rewrite trimStart_app. case_decide as Hs.
  - rewrite Hs, (trimStart_all_space ws2) by done. done.
  - by apply trimEnd_app_space.
Qed.

(** X5. White space around the text of a cell does not change what the cell
    parses to. *)
Theorem parseExcelValue_ignores_spaces ws1 s ws2 :
  Forall (fun c => isWhiteSpace c = true) ws1 ->
  Forall (fun c => isWhiteSpace c = true) ws2 ->
  parseExcelValue (Some (ws1 ++ s ++ ws2)) = parseExcelValue (Some s).
Proof.
  intros H1 H2. unfold parseExcelValue. simpl. by rewrite trim_app_space.
Qed.

(** X6. Two texts that are equal once the rupee signs, commas and percent signs
    are taken out parse to the same number as soon as one of them parses to
    a number and the other is not one of the blank texts: the signs stand
    anywhere, and a percentage is not scaled. *)
Theorem parseExcelValue_ignores_formatting s t n :
  stripFormatting (trim s) = stripFormatting (trim t) ->
  parseExcelValue (Some s) = PNumber n ->
  parseExcelValue (Some t) <> PBlank ->
  parseExcelValue (Some t) = PNumber n.
Proof.
  unfold parseExcelValue. simpl. intros <-.
  destruct (JsString.eqb (trim s) [] || _ || _); [done |].
  destruct (JsString.eqb (trim t) [] || _ || _); [done |].
  destruct (isNaN (Number (stripFormatting (trim s)))); simpl; done.
Qed.

(** A blank text and a text made of formatting signs are equal once the
    signs are taken out, yet the first is blank and the second the number
    zero: the test for blank comes before the signs are taken out. *)
Lemma blank_against_formatting :
  stripFormatting (trim emptyText) = stripFormatting (trim [rupee])
  /\ parseExcelValue (Some emptyText) = PBlank
  /\ parseExcelValue (Some [rupee]) = PNumber (S754_zero false).
Proof. repeat split; vm_compute; reflexivity. Qed.
End ParserIgnores.

(** * Columns of one type *)

Section UniformColumns.
Context `{Host} `{!ConsistentHost H}.
Variable colIndex : nat.
Implicit Types (st : TableState) (d : Direction) (l : list Row) (a b : Row).

Lemma precedes_ne {A} (l : list A) (x y : A) :
  NoDup l -> precedes l x y -> x <> y.
Proof.
  intros Hl (i & j & Hi & Hj & Hij) ->.
  pose proof (NoDup_lookup _ _ _ _ Hl Hi Hj). lia.
Qed.

(** Two arrangements of the same elements in which the same pairs stand
    in the same order are the same arrangement. *)
Lemma precedes_ext {A} `{EqDecision A} (l l' : list A) :
  l ≡ₚ l' -> NoDup l ->
  (forall x y, precedes l x y -> precedes l' x y) -> l = l'.
Proof.
  revert l'. induction l as [|u s IH]; intros l' Hp Hnd Hkeep.
  { by apply Permutation_nil_l in Hp. }
  destruct l' as [|v s']; [by apply Permutation_nil_r in Hp |].
  assert (NoDup (v :: s')) as Hnd' by (by rewrite <- Hp).
  destruct (decide (u = v)) as [-> | Huv].
  - f_equal. apply Permutation_cons_inv in Hp.
    apply NoDup_cons in Hnd as [Hvs Hnd].
    apply IH; [done | done |]. intros x y Hxy.
    apply (precedes_cons_inv s' v x y); [by apply Hkeep, precedes_cons |].
    intros ->. by apply precedes_elem_of in Hxy as [? _].
  - exfalso.
    assert (v ∈ s) as Hvs.
    { assert (v ∈ u :: s) as [?|?]%elem_of_cons by (rewrite Hp; left); congruence. }
    assert (u ∈ s') as Hus.
    { assert (u ∈ v :: s') as [?|?]%elem_of_cons by (rewrite <- Hp; left); congruence. }
    apply (precedes_asym (v :: s') u v); [done | |by apply precedes_head].
    by apply Hkeep, precedes_head.
Qed.

Lemma rowIndex_inj l a b :
  NoDup (rowIndex <$> l) -> a ∈ l -> b ∈ l -> rowIndex a = rowIndex b -> a = b.
Proof.
  intros Hnd [i Hi]%list_elem_of_lookup_1 [j Hj]%list_elem_of_lookup_1 E.
  assert (i = j) as ->; [|congruence].
  apply (NoDup_lookup _ _ _ (rowIndex a) Hnd);
    rewrite list_lookup_fmap; [by rewrite Hi | by rewrite Hj, E].
Qed.

(** On a column of one type whose texts the collation separates, only a
    row and itself compare "not after" each other both ways. *)
Lemma compareRows_strict d l a b :
  NoDup (rowIndex <$> l) -> separatedTexts colIndex l -> uniformColumn colIndex l ->
  a ∈ l -> b ∈ l ->
  compareRows colIndex d a b <= 0 -> compareRows colIndex d b a <= 0 -> a = b.
Proof.
  intros Hnd Hsep Huni Ha Hb Hab Hba.
  apply (rowIndex_inj l); try done.
  pose proof (Hsep a b) as Sab. pose proof (Huni a b Ha Hb) as Uab.
  unfold compareRows, cellType, cellValue in *.
  destruct (parseExcelValue_cases (innerTextAt a colIndex))
    as [Ea | [(na & Ea & Hna) | (sa & Ea)]];
  destruct (parseExcelValue_cases (innerTextAt b colIndex))
    as [Eb | [(nb & Eb & Hnb) | (sb & Eb)]];
  rewrite ?Ea, ?Eb in *; simpl in *; try lia.
  - destruct (strictNeq_diffSign na nb Hna Hnb)
      as [(E1 & E2 & _) | [(E1 & E2 & ? & ? & _) | (E1 & E2 & ? & ? & _)]];
      rewrite E1 in Hab; rewrite E2 in Hba; destruct d; lia.
  - by specialize (Uab ltac:(done) ltac:(done)).
  - by specialize (Uab ltac:(done) ltac:(done)).
  - specialize (Sab sa sb Ha Hb eq_refl eq_refl).
    pose proof (localeCompare_gt_lt sa sb). pose proof (localeCompare_gt_lt sb sa).
    rewrite (eqb_sym sb sa) in Hba. unfold JsString.eqb in *.
    destruct (decide (sa = sb)) as [-> | Hne].
    + rewrite (bool_decide_eq_true_2 (sb = sb)) in Hab, Hba by done.
      simpl in *. lia.
    + rewrite (bool_decide_eq_false_2 (sa = sb)) in Hab, Hba by done.
      simpl in *. exfalso. apply Hne, Sab. destruct d; lia.
Qed.

(** The sort of a column of one type leaves every row before the rows the
    comparator places after it. *)
Lemma sort_sorted_uniform d l a b :
  separatedTexts colIndex l -> uniformColumn colIndex l ->
  precedes (sort (compareRows colIndex d) l) a b ->
  compareRows colIndex d a b <= 0.
Proof.
  intros Hsep Huni Hab.
  destruct (Z_le_gt_dec (compareRows colIndex d a b) 0) as [? | Hgt]; [done |].
  exfalso.
  destruct (neighbourly_other_class (compareRows colIndex d)
              (cellType colIndex) l)
    with (l := sort (compareRows colIndex d) l) (v := a) (u := b)
    as (w & Haw & _ & Hna & _ & Hnw & Hne); auto.
  - intros x. by rewrite compareRows_refl.
  - intros x y z. by apply compareRows_trans_tags.
  - apply compareRows_blank_le.
  - apply compareRows_gt_type.
  - apply sort_neighbourly. intros x y. by apply compareRows_asym.
  - apply Forall_forall. intros x. by rewrite sort_elem_of.
  - apply Hne. apply precedes_elem_of in Haw as [Ha Hw].
    apply sort_elem_of in Ha, Hw. by apply Huni.
Qed.

(** The sorted order of a column of one type is the same from whatever
    arrangement of the rows the sort starts. *)
Lemma sort_of_Permutation d l l' :
  l ≡ₚ l' -> NoDup (rowIndex <$> l) ->
  separatedTexts colIndex l -> uniformColumn colIndex l ->
  sort (compareRows colIndex d) l = sort (compareRows colIndex d) l'.
Proof.
  intros Hp Hnd Hsep Huni.
  assert (NoDup l) as Hl by (by apply NoDup_fmap_1 in Hnd).
  assert (separatedTexts colIndex l') as Hsep'.
  { intros a b s t Ha Hb. apply Hsep; by rewrite Hp. }
  assert (uniformColumn colIndex l') as Huni'.
  { intros a b Ha Hb. apply Huni; by rewrite Hp. }
  apply precedes_ext.
  - by rewrite !sort_Permutation.
  - by apply sort_NoDup.
  - intros x y Hxy.
    pose proof (precedes_ne _ x y (sort_NoDup _ l Hl) Hxy) as Hne.
    pose proof (sort_sorted_uniform d l x y Hsep Huni Hxy) as Hle.
    apply precedes_elem_of in Hxy as [Hx Hy]. apply sort_elem_of in Hx, Hy.
    destruct (precedes_total (sort (compareRows colIndex d) l') x y)
      as [? | Hyx]; auto; try (apply sort_elem_of; by rewrite <- Hp).
    exfalso. apply Hne. apply (compareRows_strict d l); auto.
    by apply (sort_sorted_uniform d l').
Qed.

Lemma clicks_sortedSlice_Permutation cols st :
  wellTagged st -> sortedSlice (clicks cols st) ≡ₚ sortedSlice st.
Proof.
  intros Hst. destruct (clicks_invariant cols st Hst) as (_ & _ & Eh & Ep).
  rewrite (tbodyRows_parts (clicks cols st)), (tbodyRows_parts st), Eh in Ep.
  by apply Permutation_app_inv_l in Ep.
Qed.

(** X11. On a column of one type whose texts the collation separates, what a
    sort of the column in a direction gives does not depend on the clicks
    made before: the rows come out in one and the same order. *)
Theorem sort_forgets_history st cols d :
  wellTagged st ->
  separatedTexts colIndex (sortedSlice st) ->
  uniformColumn colIndex (sortedSlice st) ->
  tbodyRows (sortColumn colIndex d (clicks cols st))
  = tbodyRows (sortColumn colIndex d st).
Proof.
  intros Hst Hsep Huni.
  destruct (clicks_invariant cols st Hst) as (Hw & _ & Eh & _).
  rewrite !sortColumn_rows, Eh by done. f_equal. symmetry.
  apply sort_of_Permutation; auto.
  - symmetry. by apply clicks_sortedSlice_Permutation.
  - pose proof (wellTagged_NoDup st Hst) as Hnd. unfold wellTagged in Hst.
    rewrite (tbodyRows_parts st), fmap_app in Hst.
    by apply NoDup_app in Hst as (_ & _ & ?).
Qed.

(** X9. After a click on a column without text cell, the numbers stand in the
    order of the direction used: never a larger number before a smaller
    one when ascending, never a smaller before a larger when descending. *)
Theorem numbers_in_order st d a b x y :
  wellTagged st -> sortState st !! colIndex = Some d ->
  (forall r, r ∈ sortedSlice st -> cellType colIndex r <> TText) ->
  precedes (sortedSlice (click colIndex st)) a b ->
  cellValue colIndex a = PNumber x -> cellValue colIndex b = PNumber y ->
  SFleb (match d with Asc => x | Desc => y end)
        (match d with Asc => y | Desc => x end) = true.
Proof.
  intros Hst Hd Hnt Hab Ea Eb.
  destruct (click_sortState colIndex d st Hd) as [E _].
  rewrite E, sortedSlice_sortColumn in Hab by done.
  assert (separatedTexts colIndex (sortedSlice st)) as Hsep.
  { intros r r' s t Hr _ Er _ _. exfalso. apply (Hnt r Hr).
    unfold cellType. by rewrite Er. }
  assert (uniformColumn colIndex (sortedSlice st)) as Huni.
  { intros r r' Hr Hr' Hb Hb'. specialize (Hnt r Hr) as Ht.
    specialize (Hnt r' Hr') as Ht'.
    by destruct (cellType colIndex r), (cellType colIndex r'). }
  pose proof (sort_sorted_uniform d _ a b Hsep Huni Hab) as Hle.
  pose proof (parseExcelValue_number _ _ Ea) as Hx.
  pose proof (parseExcelValue_number _ _ Eb) as Hy.
  unfold compareRows, cellValue in *. rewrite Ea, Eb in Hle. unfold SFleb.
  destruct d.
  - destruct (strictNeq_diffSign x y Hx Hy)
      as [(E1 & _ & ->) | [(E1 & _ & ? & ? & ->) | (E1 & _ & ? & ? & _)]];
      rewrite E1 in Hle; [done | done | lia].
  - destruct (strictNeq_diffSign y x Hy Hx)
      as [(_ & E1 & ->) | [(_ & E1 & ? & ? & ->) | (_ & E1 & ? & ? & _)]];
      rewrite E1 in Hle; [done | done | lia].
Qed.

Lemma localeCompare_same s : localeCompare s s = 0.
Proof.
  pose proof (localeCompare_antisym s s).
  destruct (Z.sgn_spec (localeCompare s s)) as [[? ?] | [[? ?] | [? ?]]]; lia.
Qed.

(** X10. After a click on a column without number cell, the texts stand in the
    order [localeCompare] gives them, read in the direction used. *)
Theorem texts_in_order st d a b s t :
  wellTagged st -> sortState st !! colIndex = Some d ->
  separatedTexts colIndex (sortedSlice st) ->
  (forall r, r ∈ sortedSlice st -> cellType colIndex r <> TNumber) ->
  precedes (sortedSlice (click colIndex st)) a b ->
  cellValue colIndex a = PText s -> cellValue colIndex b = PText t ->
  match d with
  | Asc => localeCompare s t <= 0
  | Desc => localeCompare t s <= 0
  end.
Proof.
  intros Hst Hd Hsep Hnn Hab Ea Eb.
  destruct (click_sortState colIndex d st Hd) as [E _].
  rewrite E, sortedSlice_sortColumn in Hab by done.
  assert (uniformColumn colIndex (sortedSlice st)) as Huni.
  { intros r r' Hr Hr' Hb Hb'. specialize (Hnn r Hr) as Ht.
    specialize (Hnn r' Hr') as Ht'.
    by destruct (cellType colIndex r), (cellType colIndex r'). }
  pose proof (sort_sorted_uniform d _ a b Hsep Huni Hab) as Hle.
  unfold compareRows, cellValue in *. rewrite Ea, Eb in Hle. simpl in Hle.
  unfold JsString.eqb in Hle.
  destruct (decide (s = t)) as [-> | Hne].
  - rewrite localeCompare_same. by destruct d.
  - rewrite (bool_decide_eq_false_2 (s = t)) in Hle by done. simpl in Hle.
    by destruct d.
Qed.

(** Two rows showing different values of one type are placed apart by one
    of the two directions. *)
Lemma compareRows_two_directions d l a b :
  separatedTexts colIndex l -> a ∈ l -> b ∈ l ->
  cellType colIndex a = cellType colIndex b -> cellType colIndex a <> TBlank ->
  sameValue (cellValue colIndex a) (cellValue colIndex b) = false ->
  compareRows colIndex d a b <= 0 ->
  compareRows colIndex (toggle d) a b <= 0 -> False.
Proof.
  intros Hsep Ha Hb Ht Hnb Hdiff H1 H2. pose proof (Hsep a b) as Sab.
  unfold compareRows, cellType, cellValue in *.
  destruct (parseExcelValue_cases (innerTextAt a colIndex))
    as [Ea | [(na & Ea & Hna) | (sa & Ea)]];
  destruct (parseExcelValue_cases (innerTextAt b colIndex))
    as [Eb | [(nb & Eb & Hnb') | (sb & Eb)]];
  rewrite ?Ea, ?Eb in *; simpl in *; try done.
  - apply negb_false_iff in Hdiff. rewrite Hdiff in H1, H2.
    destruct (strictNeq_diffSign na nb Hna Hnb')
      as [(E1 & _) | [(_ & _ & ? & ? & _) | (_ & _ & ? & ? & _)]];
      [congruence | |]; destruct d; simpl in *; lia.
  - rewrite Hdiff in H1, H2. simpl in *.
    specialize (Sab sa sb Ha Hb eq_refl eq_refl).
    pose proof (localeCompare_gt_lt sa sb). pose proof (localeCompare_gt_lt sb sa).
    assert (sa = sb) as -> by (apply Sab; destruct d; simpl in *; lia).
    unfold JsString.eqb in Hdiff. by rewrite bool_decide_eq_true_2 in Hdiff.
Qed.

Lemma sort_toggle_reverse d l :
  NoDup (rowIndex <$> l) ->
  separatedTexts colIndex l -> uniformColumn colIndex l ->
  (forall r, r ∈ l -> cellType colIndex r <> TBlank) ->
  distinctValues colIndex l ->
  sort (compareRows colIndex (toggle d)) l
  = reverse (sort (compareRows colIndex d) l).
Proof.
  intros Hnd Hsep Huni Hnb Hdist.
  assert (NoDup l) as Hl by (by apply NoDup_fmap_1 in Hnd).
  apply precedes_ext.
  - by rewrite reverse_Permutation, !sort_Permutation.
  - by apply sort_NoDup.
  - intros x y Hxy. apply precedes_reverse.
    pose proof (precedes_ne _ x y (sort_NoDup _ l Hl) Hxy) as Hne.
    pose proof (sort_sorted_uniform (toggle d) l x y Hsep Huni Hxy) as Hle.
    apply precedes_elem_of in Hxy as [Hx Hy]. apply sort_elem_of in Hx, Hy.
    destruct (precedes_total (sort (compareRows colIndex d) l) y x)
      as [? | Hyx]; auto; try (by apply sort_elem_of).
    exfalso.
    apply (compareRows_two_directions d l x y); auto.
    by apply (sort_sorted_uniform d l).
Qed.

(** X12. On a column of one type without blank cell whose cells show pairwise
    different values, a second click on the same header puts the rows in
    the reverse of the order the first click gave. *)
Theorem second_click_reverses st d :
  wellTagged st -> sortState st !! colIndex = Some d ->
  separatedTexts colIndex (sortedSlice st) ->
  uniformColumn colIndex (sortedSlice st) ->
  (forall r, r ∈ sortedSlice st -> cellType colIndex r <> TBlank) ->
  distinctValues colIndex (sortedSlice st) ->
  sortedSlice (click colIndex (click colIndex st))
  = reverse (sortedSlice (click colIndex st)).
Proof.
  intros Hst Hd Hsep Huni Hnb Hdist.
  destruct (click_sortState colIndex d st Hd) as [E1 H1].
  destruct (click_sortState colIndex (toggle d) _ H1) as [E2 _].
  assert (wellTagged (click colIndex st)) as Hst1 by (by apply click_wellTagged).
  assert (NoDup (rowIndex <$> sortedSlice st)) as Hnd.
  { unfold wellTagged in Hst. rewrite (tbodyRows_parts st), fmap_app in Hst.
    by apply NoDup_app in Hst as (_ & _ & ?). }
  rewrite E2, sortedSlice_sortColumn by done.
  rewrite E1, sortedSlice_sortColumn by done.
  rewrite <- (sort_of_Permutation (toggle d) (sortedSlice st)); auto.
  - by apply sort_toggle_reverse.
  - symmetry. apply sort_Permutation.
Qed.


End UniformColumns.

(** * The category-sales script against the universal one *)

Section CategorySales.
Context `{Host}.
Implicit Types (st : TableState) (table : Table) (document : list Table).

(** X15. The load handler of the category-sales script gives up quietly when
    the document has no table or its first table has no body, and raises a
    TypeError exactly when that table has a body but no header section or
    a header section without row; the other tables are not looked at. *)
Theorem category_setup_outcome document :
  (categorySetup document = Skipped
   <-> document = [] \/ exists table rest, document = table :: rest /\ tBodies table = [])
  /\ (categorySetup document = TypeError
      <-> exists table rest, document = table :: rest /\ tBodies table <> []
            /\ (tHead table = None \/ tHead table = Some []))
  /\ (forall table rest rest',
        document = table :: rest ->
        categorySetup (table :: rest') = categorySetup document).
Proof.
  repeat split.
  - destruct document as [|table rest]; [by left |]. simpl.
    destruct (tBodies table) as [|tbody others] eqn:Hb; [right; eauto |].
    by destruct (tHead table) as [[|? ?]|].
  - intros [-> | (table & rest & -> & Hb)]; [done |]. simpl. by rewrite Hb.
  - destruct document as [|table rest]; [done |]. simpl.
    destruct (tBodies table) as [|tbody others] eqn:Hb; [done |].
    destruct (tHead table) as [[|? ?]|] eqn:Hh; try done;
      intros _; exists table, rest; rewrite Hb, ?Hh; auto.
  - intros (table & rest & -> & Hb & Hh). simpl.
    destruct (tBodies table); [done |]. by destruct Hh as [-> | ->].
  - by intros table rest rest' ->.
Qed.

Lemma categoryClick_click colIndex st :
  hasTHead st = true -> categoryClick colIndex st = click colIndex st.
Proof.
  intros Hh. unfold categoryClick, click, categorySortColumn, sortColumn, sortedSlice.
  by rewrite Hh.
Qed.

Lemma categoryClicks_clicks cols st :
  hasTHead st = true -> categoryClicks cols st = clicks cols st.
Proof.
  revert st. induction cols as [|c cols IH]; intros st Hh; simpl; [done |].
  rewrite categoryClick_click by done. apply IH. by rewrite click_hasTHead.
Qed.

(** X16. On a table whose header section has a first row with at least one
    cell, the two scripts set up the same state, and every sequence of
    clicks leaves the same rows in the same order and the same next
    directions under both. *)
Theorem category_agrees table document headers more tbody others :
  tHead table = Some (headers :: more) -> headers <> [] ->
  tBodies table = tbody :: others ->
  exists st,
    setup table = Some st
    /\ categorySetup (table :: document) = Ready st
    /\ forall cols, categoryClicks cols st = clicks cols st.
Proof.
  intros Hh Hne Hb. unfold setup, categorySetup, headerCells.
  rewrite Hb, Hh. destruct headers as [|c0 cs]; [done |].
  eexists. split; [reflexivity |]. split; [reflexivity |].
  intros cols. by apply categoryClicks_clicks.
Qed.
End CategorySales.

(** * More on the code-unit host *)

Lemma codeUnitCompare_eq a b : codeUnitCompare a b = 0 -> a = b.
Proof.
  revert b. induction a as [|x a IH]; intros [|y b]; simpl; try done.
  destruct (N.compare_spec x y) as [-> | ? | ?]; try done.
  intros E. by rewrite (IH b E).
Qed.

Lemma codeUnitHost_separates colIndex rows :
  separatedTexts (H := codeUnitHost) colIndex rows.
Proof. intros a b s t _ _ _ _. apply codeUnitCompare_eq. Qed.

(** * More instances on the sample tables *)

(** Membership and position in a list given in full. *)
Ltac in_list i := apply (list_elem_of_lookup_2 _ i); vm_compute; reflexivity.
Ltac before i j :=
  exists i, j; split; [vm_compute; reflexivity |];
  split; [vm_compute; reflexivity | lia].

(** All the pairs of rows of a list given in full. *)
Ltac all_pairs Ha Hb :=
  vm_compute in Ha, Hb;
  repeat (apply elem_of_cons in Ha as [-> | Ha]);
  try (by apply elem_of_nil in Ha);
  repeat (apply elem_of_cons in Hb as [-> | Hb]);
  try (by apply elem_of_nil in Hb).

Lemma setup_rows_witness :
  setup embeddedHeaderTable = Some (stateOf embeddedHeaderTable)
  /\ cells <$> tbodyRows (stateOf embeddedHeaderTable)
     = [[str "Name"; str "Amount"]; [str "a"; str "10"]; [str "b"; emptyText];
        [str "c"; rupee :: str "1,200"]; [str "d"; str "-"]; [str "e"]].
Proof.
  assert (setup embeddedHeaderTable = Some (stateOf embeddedHeaderTable)) as H1
    by (vm_compute; reflexivity).
  split; [exact H1 |].
  exact (proj1 (setup_rows embeddedHeaderTable _ [] _ H1 eq_refl)).
Defined.

Lemma clicks_keep_rows_witness :
  setup amountsTable = Some (stateOf amountsTable)
  /\ tbodyRows (clicks (H := codeUnitHost) [0; 1; 0; 0]%nat (stateOf amountsTable))
     ≡ₚ tbodyRows (stateOf amountsTable).
Proof.
  assert (setup amountsTable = Some (stateOf amountsTable)) as H1
    by (vm_compute; reflexivity).
  split; [exact H1 |].
  exact (proj1 (clicks_keep_rows (H := codeUnitHost) amountsTable _
                  [0; 1; 0; 0]%nat H1)).
Defined.

Lemma direction_parity_witness :
  sortState (stateOf tiesTable) !! 1%nat = Some Desc
  /\ sortState (clicks (H := codeUnitHost) [1; 0; 1; 1]%nat (stateOf tiesTable)) !! 1%nat
     = Some (directionAfter Desc (clicksOn 1 [1; 0; 1; 1]%nat)).
Proof.
  assert (sortState (stateOf tiesTable) !! 1%nat = Some Desc) as H1
    by (vm_compute; reflexivity).
  split; [exact H1 |].
  exact (direction_parity (H := codeUnitHost) _ 1%nat Desc [1; 0; 1; 1]%nat H1).
Defined.

Lemma empty_thead_sorts_header_witness :
  setup emptyTheadTable = Some (stateOf emptyTheadTable)
  /\ tHead emptyTheadTable = Some []
  /\ (0 < length [emptyText; str "Qty"])%nat
  /\ tbodyRows (click (H := codeUnitHost) 0 (stateOf emptyTheadTable))
     = sort (compareRows (H := codeUnitHost) 0 Desc)
            (tbodyRows (stateOf emptyTheadTable)).
Proof.
  assert (setup emptyTheadTable = Some (stateOf emptyTheadTable)) as H1
    by (vm_compute; reflexivity).
  assert (0 < length [emptyText; str "Qty"])%nat as H2 by (simpl; lia).
  split; [exact H1 |]. split; [reflexivity |]. split; [exact H2 |].
  exact (proj1 (proj2 (empty_thead_sorts_header (H := codeUnitHost)
                         emptyTheadTable _ _ [] _ 0%nat H1 eq_refl eq_refl H2))).
Defined.

Lemma parseExcelValue_ignores_spaces_witness :
  Forall (fun c => isWhiteSpace c = true) [32; 9]%N
  /\ Forall (fun c => isWhiteSpace c = true) [0xA0]%N
  /\ parseExcelValue (H := codeUnitHost) (Some ([32; 9]%N ++ str "45%" ++ [0xA0]%N))
     = parseExcelValue (H := codeUnitHost) (Some (str "45%")).
Proof.
  assert (Forall (fun c => isWhiteSpace c = true) [32; 9]%N) as H1
    by (repeat constructor).
  assert (Forall (fun c => isWhiteSpace c = true) [0xA0]%N) as H2
    by (repeat constructor).
  split; [exact H1 |]. split; [exact H2 |].
  exact (parseExcelValue_ignores_spaces (H := codeUnitHost) _ (str "45%") _ H1 H2).
Defined.

Lemma parseExcelValue_ignores_formatting_witness :
  stripFormatting (trim (str "1,200"))
  = stripFormatting (trim (rupee :: str "12,00%"))
  /\ parseExcelValue (H := codeUnitHost) (Some (str "1,200")) = PNumber (ofZ 1200)
  /\ parseExcelValue (H := codeUnitHost) (Some (rupee :: str "12,00%")) <> PBlank
  /\ parseExcelValue (H := codeUnitHost) (Some (rupee :: str "12,00%"))
     = PNumber (ofZ 1200).
Proof.
  assert (stripFormatting (trim (str "1,200"))
          = stripFormatting (trim (rupee :: str "12,00%"))) as H1
    by (vm_compute; reflexivity).
  assert (parseExcelValue (H := codeUnitHost) (Some (str "1,200"))
          = PNumber (ofZ 1200)) as H2 by (vm_compute; reflexivity).
  assert (parseExcelValue (H := codeUnitHost) (Some (rupee :: str "12,00%"))
          <> PBlank) as H3 by (vm_compute; discriminate).
  split; [exact H1 |]. split; [exact H2 |]. split; [exact H3 |].
  exact (parseExcelValue_ignores_formatting (H := codeUnitHost) _ _ _ H1 H2 H3).
Defined.

Lemma amounts_uniform :
  uniformColumn (H := codeUnitHost) 0 (sortedSlice amountsReversedState).
Proof.
  intros a b Ha Hb. all_pairs Ha Hb; vm_compute; congruence.
Qed.

Lemma stable_on_uniform_column_witness :
  wellTagged amountsReversedState
  /\ sortState amountsReversedState !! 0%nat = Some Desc
  /\ mkRow 0 [str "5"; str "1"] ∈ sortedSlice amountsReversedState
  /\ mkRow 3 [str "5"; str "4"] ∈ sortedSlice amountsReversedState
  /\ precedes (sortedSlice amountsReversedState)
       (mkRow 3 [str "5"; str "4"]) (mkRow 0 [str "5"; str "1"])
  /\ precedes (sortedSlice (click (H := codeUnitHost) 0 amountsReversedState))
       (mkRow 0 [str "5"; str "1"]) (mkRow 3 [str "5"; str "4"]).
Proof.
  assert (wellTagged amountsReversedState) as H1
    by (unfold wellTagged; apply (bool_decide_unpack _); vm_compute; exact I).
  assert (sortState amountsReversedState !! 0%nat = Some Desc) as H2
    by (vm_compute; reflexivity).
  assert (mkRow 0 [str "5"; str "1"] ∈ sortedSlice amountsReversedState) as H3
    by in_list 5%nat.
  assert (mkRow 3 [str "5"; str "4"] ∈ sortedSlice amountsReversedState) as H4
    by in_list 2%nat.
  assert (sameValue (cellValue (H := codeUnitHost) 0 (mkRow 0 [str "5"; str "1"]))
            (cellValue (H := codeUnitHost) 0 (mkRow 3 [str "5"; str "4"])) = true)
    as H5 by (vm_compute; reflexivity).
  assert (rowIndex (mkRow 0 [str "5"; str "1"])
          < rowIndex (mkRow 3 [str "5"; str "4"])) as H6 by (simpl; lia).
  split; [exact H1 |]. split; [exact H2 |]. split; [exact H3 |].
  split; [exact H4 |]. split; [before 2%nat 5%nat |].
  exact (stable_on_uniform_column (H := codeUnitHost) _ 0%nat Desc _ _ H1 H2
           (codeUnitHost_separates _ _) amounts_uniform H3 H4 H5 H6).
Defined.

Lemma ties_apart_only_across_types_witness :
  wellTagged mixedReversedState
  /\ sortState mixedReversedState !! 1%nat = Some Desc
  /\ mkRow 0 [str "1"; str "5"] ∈ sortedSlice mixedReversedState
  /\ mkRow 2 [str "3"; str "5"] ∈ sortedSlice mixedReversedState
  /\ (precedes (sortedSlice (click (H := codeUnitHost) 1 mixedReversedState))
        (mkRow 0 [str "1"; str "5"]) (mkRow 2 [str "3"; str "5"])
      \/ exists w,
           precedes (sortedSlice (click (H := codeUnitHost) 1 mixedReversedState))
             (mkRow 2 [str "3"; str "5"]) w
           /\ precedes (sortedSlice (click (H := codeUnitHost) 1 mixedReversedState))
                w (mkRow 0 [str "1"; str "5"])
           /\ cellType (H := codeUnitHost) 1 (mkRow 2 [str "3"; str "5"]) <> TBlank
           /\ cellType (H := codeUnitHost) 1 w <> TBlank
           /\ cellType (H := codeUnitHost) 1 w
              <> cellType (H := codeUnitHost) 1 (mkRow 2 [str "3"; str "5"])).
Proof.
  assert (wellTagged mixedReversedState) as H1
    by (unfold wellTagged; apply (bool_decide_unpack _); vm_compute; exact I).
  assert (sortState mixedReversedState !! 1%nat = Some Desc) as H2
    by (vm_compute; reflexivity).
  assert (mkRow 0 [str "1"; str "5"] ∈ sortedSlice mixedReversedState) as H3
    by in_list 2%nat.
  assert (mkRow 2 [str "3"; str "5"] ∈ sortedSlice mixedReversedState) as H4
    by in_list 0%nat.
  assert (sameValue (cellValue (H := codeUnitHost) 1 (mkRow 0 [str "1"; str "5"]))
            (cellValue (H := codeUnitHost) 1 (mkRow 2 [str "3"; str "5"])) = true)
    as H5 by (vm_compute; reflexivity).
  assert (rowIndex (mkRow 0 [str "1"; str "5"])
          < rowIndex (mkRow 2 [str "3"; str "5"])) as H6 by (simpl; lia).
  split; [exact H1 |]. split; [exact H2 |]. split; [exact H3 |].
  split; [exact H4 |].
  exact (ties_apart_only_across_types (H := codeUnitHost) _ 1%nat Desc _ _ H1 H2
           (codeUnitHost_separates _ _) H3 H4 H5 H6).
Defined.

Lemma numbers_in_order_witness :
  wellTagged amountsReversedState
  /\ sortState amountsReversedState !! 0%nat = Some Desc
  /\ precedes (sortedSlice (click (H := codeUnitHost) 0 amountsReversedState))
       (mkRow 2 [rupee :: str "1,200"; str "3"]) (mkRow 5 [str "45%"; str "6"])
  /\ SFleb (ofZ 45) (ofZ 1200) = true.
Proof.
  assert (wellTagged amountsReversedState) as H1
    by (unfold wellTagged; apply (bool_decide_unpack _); vm_compute; exact I).
  assert (sortState amountsReversedState !! 0%nat = Some Desc) as H2
    by (vm_compute; reflexivity).
  assert (forall r, r ∈ sortedSlice amountsReversedState ->
                    cellType (H := codeUnitHost) 0 r <> TText) as H3.
  { intros r Hr. vm_compute in Hr.
    repeat (apply elem_of_cons in Hr as [-> | Hr]);
      try (by apply elem_of_nil in Hr); vm_compute; discriminate. }
  assert (precedes (sortedSlice (click (H := codeUnitHost) 0 amountsReversedState))
            (mkRow 2 [rupee :: str "1,200"; str "3"]) (mkRow 5 [str "45%"; str "6"]))
    as H4 by before 0%nat 1%nat.
  assert (cellValue (H := codeUnitHost) 0 (mkRow 2 [rupee :: str "1,200"; str "3"])
          = PNumber (ofZ 1200)) as H5 by (vm_compute; reflexivity).
  assert (cellValue (H := codeUnitHost) 0 (mkRow 5 [str "45%"; str "6"])
          = PNumber (ofZ 45)) as H6 by (vm_compute; reflexivity).
  split; [exact H1 |]. split; [exact H2 |]. split; [exact H4 |].
  exact (numbers_in_order (H := codeUnitHost) 0%nat _ Desc _ _ _ _
           H1 H2 H3 H4 H5 H6).
Defined.

Lemma texts_in_order_witness :
  wellTagged (stateOf tiesTable)
  /\ sortState (stateOf tiesTable) !! 0%nat = Some Desc
  /\ precedes (sortedSlice (click (H := codeUnitHost) 0 (stateOf tiesTable)))
       (mkRow 2 [str "C"; str "5"]) (mkRow 0 [str "A"; str "5"])
  /\ localeCompare (Host := codeUnitHost) (str "a") (str "c") <= 0.
Proof.
  assert (wellTagged (stateOf tiesTable)) as H1
    by (unfold wellTagged; apply (bool_decide_unpack _); vm_compute; exact I).
  assert (sortState (stateOf tiesTable) !! 0%nat = Some Desc) as H2
    by (vm_compute; reflexivity).
  assert (forall r, r ∈ sortedSlice (stateOf tiesTable) ->
                    cellType (H := codeUnitHost) 0 r <> TNumber) as H3.
  { intros r Hr. vm_compute in Hr.
    repeat (apply elem_of_cons in Hr as [-> | Hr]);
      try (by apply elem_of_nil in Hr); vm_compute; discriminate. }
  assert (precedes (sortedSlice (click (H := codeUnitHost) 0 (stateOf tiesTable)))
            (mkRow 2 [str "C"; str "5"]) (mkRow 0 [str "A"; str "5"]))
    as H4 by before 0%nat 2%nat.
  assert (cellValue (H := codeUnitHost) 0 (mkRow 2 [str "C"; str "5"])
          = PText (str "c")) as H5 by (vm_compute; reflexivity).
  assert (cellValue (H := codeUnitHost) 0 (mkRow 0 [str "A"; str "5"])
          = PText (str "a")) as H6 by (vm_compute; reflexivity).
  split; [exact H1 |]. split; [exact H2 |]. split; [exact H4 |].
  exact (texts_in_order (H := codeUnitHost) 0%nat _ Desc _ _ _ _
           H1 H2 (codeUnitHost_separates _ _) H3 H4 H5 H6).
Defined.

Lemma amounts_loaded_uniform :
  uniformColumn (H := codeUnitHost) 0 (sortedSlice (stateOf amountsTable)).
Proof.
  intros a b Ha Hb. all_pairs Ha Hb; vm_compute; congruence.
Qed.

Lemma sort_forgets_history_witness :
  wellTagged (stateOf amountsTable)
  /\ tbodyRows (sortColumn (H := codeUnitHost) 0 Asc
                  (clicks (H := codeUnitHost) [1; 0; 1]%nat (stateOf amountsTable)))
     = tbodyRows (sortColumn (H := codeUnitHost) 0 Asc (stateOf amountsTable)).
Proof.
  assert (wellTagged (stateOf amountsTable)) as H1
    by (unfold wellTagged; apply (bool_decide_unpack _); vm_compute; exact I).
  split; [exact H1 |].
  exact (sort_forgets_history (H := codeUnitHost) 0%nat _ [1; 0; 1]%nat Asc H1
           (codeUnitHost_separates _ _) amounts_loaded_uniform).
Defined.

Lemma plainNumbers_uniform :
  uniformColumn (H := codeUnitHost) 0 (sortedSlice (stateOf plainNumbersTable)).
Proof.
  intros a b Ha Hb. all_pairs Ha Hb; vm_compute; congruence.
Qed.

Lemma plainNumbers_distinct :
  distinctValues (H := codeUnitHost) 0 (sortedSlice (stateOf plainNumbersTable)).
Proof.
  intros a b Ha Hb Hne. all_pairs Ha Hb;
    first [by destruct Hne | vm_compute; reflexivity].
Qed.

Lemma second_click_reverses_witness :
  wellTagged (stateOf plainNumbersTable)
  /\ sortState (stateOf plainNumbersTable) !! 0%nat = Some Desc
  /\ sortedSlice (click (H := codeUnitHost) 0
                    (click (H := codeUnitHost) 0 (stateOf plainNumbersTable)))
     = reverse (sortedSlice (click (H := codeUnitHost) 0 (stateOf plainNumbersTable))).
Proof.
  assert (wellTagged (stateOf plainNumbersTable)) as H1
    by (unfold wellTagged; apply (bool_decide_unpack _); vm_compute; exact I).
  assert (sortState (stateOf plainNumbersTable) !! 0%nat = Some Desc) as H2
    by (vm_compute; reflexivity).
  assert (forall r, r ∈ sortedSlice (stateOf plainNumbersTable) ->
                    cellType (H := codeUnitHost) 0 r <> TBlank) as H3.
  { intros r Hr. vm_compute in Hr.
    repeat (apply elem_of_cons in Hr as [-> | Hr]);
      try (by apply elem_of_nil in Hr); vm_compute; discriminate. }
  split; [exact H1 |]. split; [exact H2 |].
  exact (second_click_reverses (H := codeUnitHost) 0%nat _ Desc H1 H2
           (codeUnitHost_separates _ _) plainNumbers_uniform H3
           plainNumbers_distinct).
Defined.



Lemma category_agrees_witness :
  tHead tiesTable = Some ([str "Name"; str "Amount"] :: [])
  /\ [str "Name"; str "Amount"] <> []
  /\ exists st,
       setup tiesTable = Some st
       /\ categorySetup [tiesTable; mixedTable] = Ready st
       /\ forall cols,
            categoryClicks (H := codeUnitHost) cols st
            = clicks (H := codeUnitHost) cols st.
Proof.
  assert ([str "Name"; str "Amount"] <> []) as H1 by discriminate.
  split; [reflexivity |]. split; [exact H1 |].
  exact (category_agrees (H := codeUnitHost) tiesTable [mixedTable] _ [] _ []
           eq_refl H1 eq_refl).
Defined.
